(** * PmergeMe: the Ford-Johnson sorter of ex02 and ex02_basic

    A shallow embedding of [src/ex02/PmergeMe.cpp] and
    [src/ex02_basic/PmergeMe.cpp]: the Jacobsthal numbers, the insertion-order
    planner, the insertion sort, the four merge-insert sorters and the reading
    of the command line, with the properties of each.

    Conventions of the embedding.
    - An [int] element is a [Z]; the sorter only copies and compares elements.
    - A [std::vector], [std::deque] or [std::vector<bool>] is a [list]; reading
      or writing outside the container is undefined behaviour in C++ and is
      [None] here.
    - A function returns [option]: [None] stands for a run that produces no
      result (an access outside a container, an [int] that overflows, an
      allocation that is refused, or a loop that never exits).
    - [size_t] is the 64-bit unsigned type of an LP64 platform.  Its
      arithmetic wraps modulo [2^64] ([wrap64]) where a value can leave the
      range: the accumulators and the counter of [jacobsthal], and the
      counter of the [while (true)] loop of the planner.  The other counters
      are bounded by a container size and never wrap.
    - [int n = arr.size()] converts modulo [2^32] ([to_int]).
    - The indices [left], [right], [i] and [j] of [insertionSortVector] and
      [insertionSortDeque] are [int]s: an addition or subtraction whose
      result leaves the type is undefined behaviour, [None] ([in_int]).
    - The vectors of the planner come from an [Allocator], which may refuse
      a request; the call then ends with an exception, [None].  The sorters
      take every allocation to succeed ([granting]).
    - A [std::string] is a [string]; [long] has 64 bits. *)

From Stdlib Require Import Ascii String.
From Stdlib Require Import ZArith Lia List Sorted Permutation.
From stdpp Require Import base tactics option list sorting.

Local Open Scope Z_scope.

(** ** Machine integers *)

Definition SIZE_MAX : Z := 18446744073709551615.
Definition INT_MAX : Z := 2147483647.
Definition INT_MIN : Z := -2147483648.

(** Arithmetic on [size_t]: the result modulo [2^64]. *)
Definition wrap64 (z : Z) : Z := z mod 2 ^ 64.

(** The conversion of a [size_t] to [int]. *)
Definition to_int (z : Z) : Z := (z + 2 ^ 31) mod 2 ^ 32 - 2 ^ 31.

(** The result [z] of an addition or subtraction of [int]s: outside the type
    the operation overflows, which is undefined behaviour. *)
Definition in_int (z : Z) : option Z :=
  if (INT_MIN <=? z) && (z <=? INT_MAX) then Some z else None.

(** ** Containers *)

Definition vec_size {A} (v : list A) : Z := Z.of_nat (length v).

(** [v[i]] as an rvalue. *)
Definition vec_get {A} (v : list A) (i : Z) : option A :=
  if 0 <=? i then v !! Z.to_nat i else None.

(** [v[i] = x]. *)
Definition vec_set {A} (v : list A) (i : Z) (x : A) : option (list A) :=
  if (0 <=? i) && (i <? vec_size v) then Some (<[Z.to_nat i := x]> v) else None.

(** [v.push_back(x)]. *)
Definition push_back {A} (v : list A) (x : A) : list A := v ++ [x].

(** [v.insert(v.begin() + pos, x)]. *)
Definition vec_insert {A} (v : list A) (pos : Z) (x : A) : option (list A) :=
  if (0 <=? pos) && (pos <=? vec_size v)
  then Some (take (Z.to_nat pos) v ++ x :: drop (Z.to_nat pos) v)
  else None.

(** [d.push_front(x)] of a deque. *)
Definition push_front {A} (d : list A) (x : A) : list A := x :: d.

(** ** Loops

    [while fuel cond body s] runs [while (cond) body] from the state [s].
    The condition and the body may fail.  [fuel] bounds the number of
    evaluations of the condition; by [while_fuel_mono] a result does not
    depend on it. *)

Fixpoint while {St : Type} (fuel : nat) (cond : St -> option bool)
    (body : St -> option St) (s : St) : option St :=
  match fuel with
  | O => None
  | S fuel' =>
      b ← cond s;
      if b : bool then s' ← body s; while fuel' cond body s' else Some s
  end.

(** ** The Jacobsthal number generator (ex02, [PmergeMe::jacobsthal]) *)

(** The state of the [for] loop is [(i, prev2, prev1, current)].  The loop
    runs [n - 1] times; for [n = SIZE_MAX] the test [i <= n] never fails and
    the fuel runs out. *)
Definition jacobsthal (n : Z) : option Z :=
  if n =? 0 then Some 0
  else if n =? 1 then Some 1
  else
    '(_, _, _, current) ←
      while (Z.to_nat n)
        (fun '(i, _, _, _) => Some (i <=? n))
        (fun '(i, prev2, prev1, _) =>
           let current := wrap64 (prev1 + 2 * prev2) in
           Some (wrap64 (i + 1), prev1, current, current))
        (2, 0, 1, 1);
    Some current.

(** The reference sequence, as the specification words it:
    J(0) = 0, J(1) = 1, J(n) = J(n-1) + 2 J(n-2). *)
Fixpoint J (n : nat) : Z :=
  match n with
  | O => 0
  | S m => match m with
           | O => 1
           | S k => J m + 2 * J k
           end
  end.

(** J(65), the largest Jacobsthal number below [2^64]. *)
Definition J65 : Z := 12297829382473034411.

(** ** The insertion-order planner (ex02,
    [PmergeMe::generateJacobsthalInsertionOrder])

    The planner allocates three vectors: [inserted] with [pendSize] flags,
    and [jacobsthalNums] and [order], which grow by [push_back].  An
    allocator grants a [std::vector<bool>] at most [max_bools] elements and a
    [std::vector<size_t>] at most [max_size_ts] elements; a request beyond
    that throws ([std::bad_alloc] or [std::length_error]) and the call
    produces no order: [None]. *)

Record Allocator : Type := mkAllocator {
  max_bools : Z;
  max_size_ts : Z;
}.

(** The loop that collects the block boundaries either leaves, or is ended
    by a refused allocation, within 63 rounds, or it never leaves
    ([jacobsthalNums_loop_fuel]): 64 evaluations of its condition are as good
    as any larger number. *)
Definition jacobsthalNums_fuel : nat := 64.

Section allocator.
Context (al : Allocator).

(** [std::vector<bool> v(n, x)]. *)
Definition new_bools (n : Z) (x : bool) : option (list bool) :=
  if n <=? max_bools al then Some (replicate (Z.to_nat n) x) else None.

(** [v.push_back(x)] on a [std::vector<size_t>]. *)
Definition push_back_alloc (v : list Z) (x : Z) : option (list Z) :=
  if vec_size v <? max_size_ts al then Some (push_back v x) else None.

(** The [while (true)] loop that collects the block boundaries.  Its state is
    [(jacobsthalNums, index, running)]; [break] clears [running]. *)
Definition jacobsthalNums_loop (fuel : nat) (pendSize : Z) : option (list Z) :=
  '(jacobsthalNums, _, _) ←
    while fuel
      (fun '(_, _, running) => Some running)
      (fun '(jacobsthalNums, index, _) =>
         jNum ← jacobsthal index;
         if pendSize <=? jNum
         then jacobsthalNums ← push_back_alloc jacobsthalNums (pendSize - 1);
              Some (jacobsthalNums, index, false)
         else jacobsthalNums ← push_back_alloc jacobsthalNums jNum;
              Some (jacobsthalNums, wrap64 (index + 1), true))
      ([], 3, true);
  Some jacobsthalNums.

(** [order] is the out-parameter: its value on entry, and the result. *)
Definition generateJacobsthalInsertionOrder (pendSize : Z) (order : list Z)
    : option (list Z) :=
  if pendSize =? 0 then Some order
  else
    let order : list Z := [] in
    inserted ← new_bools pendSize false;
    jacobsthalNums ← jacobsthalNums_loop jacobsthalNums_fuel pendSize;
    '(order, inserted, _, _) ←
      while (S (length jacobsthalNums))
        (fun '(_, _, _, i) => Some (i <? vec_size jacobsthalNums))
        (fun '(order, inserted, prevJacob, i) =>
           currentJacob ← vec_get jacobsthalNums i;
           '(order, inserted, _) ←
             while (S (Z.to_nat (currentJacob - prevJacob)))
               (fun '(_, _, j) => Some (prevJacob <? j))
               (fun '(order, inserted, j) =>
                  fresh ← (if j <? pendSize
                           then b ← vec_get inserted j; Some (negb b)
                           else Some false);
                  if fresh : bool
                  then order ← push_back_alloc order j;
                       inserted ← vec_set inserted j true;
                       Some (order, inserted, j - 1)
                  else Some (order, inserted, j - 1))
               (order, inserted, currentJacob);
           Some (order, inserted, currentJacob, i + 1))
        (order, inserted, 0, 0);
    '(order, _) ←
      while (S (Z.to_nat pendSize))
        (fun '(_, i) => Some (i <? pendSize))
        (fun '(order, i) =>
           b ← vec_get inserted i;
           order ← (if negb b then push_back_alloc order i else Some order);
           Some (order, i + 1))
        (order, 0);
    Some order.

End allocator.

(** The allocator of the sorters.  The sorters take their own vectors to be
    allocated (they are lists here), and the vectors of the planner with
    them: every request that a [size_t] can count is granted.  They call the
    planner with a [pendSize] below [2^30]. *)
Definition granting : Allocator := mkAllocator SIZE_MAX SIZE_MAX.

(** ** Insertion sort of a range (ex02 and ex02_basic,
    [PmergeMe::insertionSortVector], [PmergeMe::insertionSortDeque])

    The two functions are the same text.  [left], [right], [i] and [j] are
    [int]s: [left + 1], [i - 1], [j + 1], [--j] and [++i] go through
    [in_int].  The state of the [for] loop is [(arr, i)], that of the [while]
    loop [(arr, j)]. *)

Definition insertionSortVector (arr : list Z) (left right : Z)
    : option (list Z) :=
  i ← in_int (left + 1);
  '(arr, _) ←
    while (S (Z.to_nat (right - left)))
      (fun '(_, i) => Some (i <=? right))
      (fun '(arr, i) =>
         key ← vec_get arr i;
         j ← in_int (i - 1);
         '(arr, j) ←
           while (S (Z.to_nat (i - left)))
             (fun '(arr, j) =>
                if left <=? j then x ← vec_get arr j; Some (x >? key)
                else Some false)
             (fun '(arr, j) =>
                x ← vec_get arr j;
                j1 ← in_int (j + 1);
                arr ← vec_set arr j1 x;
                j ← in_int (j - 1);
                Some (arr, j))
             (arr, j);
         j1 ← in_int (j + 1);
         arr ← vec_set arr j1 key;
         i ← in_int (i + 1);
         Some (arr, i))
      (arr, i);
  Some arr.

Definition insertionSortDeque (arr : list Z) (left right : Z)
    : option (list Z) :=
  i ← in_int (left + 1);
  '(arr, _) ←
    while (S (Z.to_nat (right - left)))
      (fun '(_, i) => Some (i <=? right))
      (fun '(arr, i) =>
         key ← vec_get arr i;
         j ← in_int (i - 1);
         '(arr, j) ←
           while (S (Z.to_nat (i - left)))
             (fun '(arr, j) =>
                if left <=? j then x ← vec_get arr j; Some (x >? key)
                else Some false)
             (fun '(arr, j) =>
                x ← vec_get arr j;
                j1 ← in_int (j + 1);
                arr ← vec_set arr j1 x;
                j ← in_int (j - 1);
                Some (arr, j))
             (arr, j);
         j1 ← in_int (j + 1);
         arr ← vec_set arr j1 key;
         i ← in_int (i + 1);
         Some (arr, i))
      (arr, i);
  Some arr.

(** ** Insertion sort of the pairs

    The loop that sorts [pairs] by their larger element is the same insertion
    sort, on the whole vector, with other index types: its counter [j] is a
    [size_t] below [pairs.size()], and [int k] starts at [j - 1] and stays
    between -1 and [j].  [pairs] has at most [n / 2] elements for an [int n],
    so neither leaves its type.  [gt x key] stands for
    [pairs[k].second > key.second]; below, [insertion_sort_range] is also
    what [insertionSortVector] is compared with. *)

Section insertion_sort.
Context {A : Type} (gt : A -> A -> bool).

Definition insertion_sort_range (arr : list A) (left right : Z)
    : option (list A) :=
  '(arr, _) ←
    while (S (Z.to_nat (right - left)))
      (fun '(_, i) => Some (i <=? right))
      (fun '(arr, i) =>
         key ← vec_get arr i;
         '(arr, j) ←
           while (S (Z.to_nat (i - left)))
             (fun '(arr, j) =>
                if left <=? j then x ← vec_get arr j; Some (gt x key)
                else Some false)
             (fun '(arr, j) =>
                x ← vec_get arr j;
                arr ← vec_set arr (j + 1) x;
                Some (arr, j - 1))
             (arr, i - 1);
         arr ← vec_set arr (j + 1) key;
         Some (arr, i + 1))
      (arr, left + 1);
  Some arr.

End insertion_sort.

(** Modelled from the spec: [std::lower_bound] belongs to the C++ standard
    library, not to the repository; the specification describes the call as a
    binary search for the ascending insertion position.  This is the usual
    halving search; the result is the offset of the returned iterator from
    [begin()]. *)
Definition lower_bound (v : list Z) (val : Z) : option Z :=
  '(first, _) ←
    while (S (length v))
      (fun '(_, len) => Some (0 <? len))
      (fun '(first, len) =>
         let half := Z.shiftr len 1 in
         let middle := first + half in
         x ← vec_get v middle;
         if x <? val then Some (middle + 1, len - half - 1)
         else Some (first, half))
      (0, vec_size v);
  Some first.

(** ** The phases of the merge-insert driver

    [mergeInsertSortVector] and [mergeInsertSortDeque] of ex02 and of
    ex02_basic repeat the same text for the pairing, the sort of the pairs
    and the split; it is written once here. *)

(** [std::pair<int, int>]: [first] is [.1], [second] is [.2]. *)
Abbreviation Pair := (Z * Z)%type.

(** The pairing loop; the result is the pairs and the final [i]. *)
Definition make_pairs (arr : list Z) (n : Z) : option (list Pair * Z) :=
  while (S (Z.to_nat n))
    (fun '(_, i) => Some (i + 1 <? n))
    (fun '(pairs, i) =>
       a ← vec_get arr i;
       b ← vec_get arr (i + 1);
       Some (push_back pairs (if a >? b then (b, a) else (a, b)), i + 2))
    ([], 0).

(** [int straggler = -1; if (i < n) straggler = arr[i];] *)
Definition take_straggler (arr : list Z) (n i : Z) : option Z :=
  if i <? n then vec_get arr i else Some (-1).

(** The insertion sort of the pairs, by [second]. *)
Definition sort_pairs (pairs : list Pair) : option (list Pair) :=
  insertion_sort_range (fun p key => p.2 >? key.2) pairs 0 (vec_size pairs - 1).

(** The loop that fills [mainChain] and [pend]. *)
Definition split_pairs (pairs : list Pair) : option (list Z * list Z) :=
  '(mainChain, pend, _) ←
    while (S (length pairs))
      (fun '(_, _, j) => Some (j <? vec_size pairs))
      (fun '(mainChain, pend, j) =>
         p ← vec_get pairs j;
         Some (push_back mainChain p.2, push_back pend p.1, j + 1))
      ([], [], 0);
  Some (mainChain, pend).

(** [pos = std::lower_bound(begin, end, x); mainChain.insert(pos, x);] *)
Definition binary_insert (mainChain : list Z) (x : Z) : option (list Z) :=
  pos ← lower_bound mainChain x;
  vec_insert mainChain pos x.

(** [if (straggler != -1) ...] *)
Definition insert_straggler (mainChain : list Z) (straggler : Z)
    : option (list Z) :=
  if negb (straggler =? -1) then binary_insert mainChain straggler
  else Some mainChain.

(** The insertion of [pend[1..]] in the planned order (ex02). *)
Definition insert_pend_planned (mainChain pend insertionOrder : list Z)
    : option (list Z) :=
  '(mainChain, _) ←
    while (S (length insertionOrder))
      (fun '(_, j) => Some (j <? vec_size insertionOrder))
      (fun '(mainChain, j) =>
         o ← vec_get insertionOrder j;
         let pendIndex := o + 1 in
         x ← vec_get pend pendIndex;
         mainChain ← binary_insert mainChain x;
         Some (mainChain, j + 1))
      (mainChain, 0);
  Some mainChain.

(** The insertion of [pend[1..]] in index order (ex02_basic). *)
Definition insert_pend_sequential (mainChain pend : list Z) : option (list Z) :=
  '(mainChain, _) ←
    while (S (length pend))
      (fun '(_, j) => Some (j <? vec_size pend))
      (fun '(mainChain, j) =>
         x ← vec_get pend j;
         mainChain ← binary_insert mainChain x;
         Some (mainChain, j + 1))
      (mainChain, 1);
  Some mainChain.

(** ** ex02: the sorters *)

(** The path taken when [n > 10]. *)
Definition pairing_path_vector (arr : list Z) (n : Z) : option (list Z) :=
  '(pairs, i) ← make_pairs arr n;
  straggler ← take_straggler arr n i;
  pairs ← sort_pairs pairs;
  '(mainChain, pend) ← split_pairs pairs;
  mainChain ← (if negb (bool_decide (pend = []))
               then p0 ← vec_get pend 0; vec_insert mainChain 0 p0
               else Some mainChain);
  insertionOrder ← (if 1 <? vec_size pend
                    then generateJacobsthalInsertionOrder granting
                           (vec_size pend - 1) []
                    else Some []);
  mainChain ← insert_pend_planned mainChain pend insertionOrder;
  insert_straggler mainChain straggler.

Definition mergeInsertSortVector (arr : list Z) : option (list Z) :=
  let n := to_int (vec_size arr) in
  if n <=? 10 then insertionSortVector arr 0 (n - 1)
  else pairing_path_vector arr n.

Definition pairing_path_deque (arr : list Z) (n : Z) : option (list Z) :=
  '(pairs, i) ← make_pairs arr n;
  straggler ← take_straggler arr n i;
  pairs ← sort_pairs pairs;
  '(mainChain, pend) ← split_pairs pairs;
  mainChain ← (if negb (bool_decide (pend = []))
               then p0 ← vec_get pend 0; Some (push_front mainChain p0)
               else Some mainChain);
  insertionOrder ← (if 1 <? vec_size pend
                    then generateJacobsthalInsertionOrder granting
                           (vec_size pend - 1) []
                    else Some []);
  mainChain ← insert_pend_planned mainChain pend insertionOrder;
  insert_straggler mainChain straggler.

Definition mergeInsertSortDeque (arr : list Z) : option (list Z) :=
  let n := to_int (vec_size arr) in
  if n <=? 10 then insertionSortDeque arr 0 (n - 1)
  else pairing_path_deque arr n.

(** ** ex02_basic: the sorters *)

Module Basic.

Definition pairing_path_vector (arr : list Z) (n : Z) : option (list Z) :=
  '(pairs, i) ← make_pairs arr n;
  straggler ← take_straggler arr n i;
  pairs ← sort_pairs pairs;
  '(mainChain, pend) ← split_pairs pairs;
  mainChain ← (if negb (bool_decide (pend = []))
               then p0 ← vec_get pend 0; vec_insert mainChain 0 p0
               else Some mainChain);
  mainChain ← insert_pend_sequential mainChain pend;
  insert_straggler mainChain straggler.

Definition mergeInsertSortVector (arr : list Z) : option (list Z) :=
  let n := to_int (vec_size arr) in
  if n <=? 10 then insertionSortVector arr 0 (n - 1)
  else pairing_path_vector arr n.

Definition pairing_path_deque (arr : list Z) (n : Z) : option (list Z) :=
  '(pairs, i) ← make_pairs arr n;
  straggler ← take_straggler arr n i;
  pairs ← sort_pairs pairs;
  '(mainChain, pend) ← split_pairs pairs;
  mainChain ← (if negb (bool_decide (pend = []))
               then p0 ← vec_get pend 0; Some (push_front mainChain p0)
               else Some mainChain);
  mainChain ← insert_pend_sequential mainChain pend;
  insert_straggler mainChain straggler.

Definition mergeInsertSortDeque (arr : list Z) : option (list Z) :=
  let n := to_int (vec_size arr) in
  if n <=? 10 then insertionSortDeque arr 0 (n - 1)
  else pairing_path_deque arr n.

End Basic.

(** ** ex02 and ex02_basic: the command line

    [isValidNumber] and [parseInput] are the same text in both exercises. *)

(** The characters of a [std::string]. *)
Definition chars (str : String.string) : list Ascii.ascii :=
  String.list_ascii_of_string str.

Definition char_code (c : Ascii.ascii) : Z := Z.of_N (Ascii.N_of_ascii c).

(** [isdigit] and [isspace] of the C locale. *)
Definition isdigit (c : Ascii.ascii) : bool :=
  (48 <=? char_code c) && (char_code c <=? 57).

Definition isspace (c : Ascii.ascii) : bool :=
  (char_code c =? 32) || ((9 <=? char_code c) && (char_code c <=? 13)).

Definition LONG_MAX : Z := 9223372036854775807.
Definition LONG_MIN : Z := -9223372036854775808.

Fixpoint skip_spaces (s : list Ascii.ascii) : list Ascii.ascii :=
  match s with
  | c :: rest => if isspace c then skip_spaces rest else s
  | [] => []
  end.

(** The value of the leading decimal digits of [s], continuing [acc]. *)
Fixpoint leading_digits (acc : Z) (s : list Ascii.ascii) : Z :=
  match s with
  | c :: rest =>
      if isdigit c then leading_digits (10 * acc + (char_code c - 48)) rest
      else acc
  | [] => acc
  end.

(** The number a C conversion reads: white space, an optional sign, the
    leading digits. *)
Definition parse_number (s : list Ascii.ascii) : Z :=
  let s := skip_spaces s in
  match s with
  | c :: rest =>
      if char_code c =? 45 then - leading_digits 0 rest
      else if char_code c =? 43 then leading_digits 0 rest
      else leading_digits 0 s
  | [] => 0
  end.

(** Modelled from the spec: [atol] and [atoi] belong to the C library, not to
    the repository; the specification has the validation confirm that a token
    "is a positive integer fitting a 32-bit range".  They read a number as
    [parse_number] does; a number outside [long] (outside [int]) leaves the
    result undefined in C, [None] here. *)
Definition atol (str : String.string) : option Z :=
  let r := parse_number (chars str) in
  if (LONG_MIN <=? r) && (r <=? LONG_MAX) then Some r else None.

Definition atoi (str : String.string) : option Z :=
  let r := parse_number (chars str) in
  if (INT_MIN <=? r) && (r <=? INT_MAX) then Some r else None.

(** The state of the digit loop is [(i, bad)]; [return false] inside the loop
    sets [bad]. *)
Definition isValidNumber (str : String.string) : option bool :=
  if bool_decide (chars str = []) then Some false
  else
    '(_, bad) ←
      while (S (length (chars str)))
        (fun '(i, bad) => Some ((i <? vec_size (chars str)) && negb bad))
        (fun '(i, _) =>
           c ← vec_get (chars str) i;
           if negb (isdigit c) then Some (i, true) else Some (i + 1, false))
        (0, false);
    if bad : bool then Some false
    else
      num ← atol str;
      if (num <=? 0) || (num >? 2147483647) then Some false else Some true.

(** The two containers of the class. *)
Record PmergeMe : Type := mkPmergeMe {
  _vectorData : list Z;
  _dequeData : list Z;
}.

(** [PmergeMe::PmergeMe()]. *)
Definition PmergeMe_new : PmergeMe := mkPmergeMe [] [].

(** [parseInput] returns its [bool], the object after the call and the lines
    written to [std::cerr].  The state of the loop is [(self, i, failed)];
    [return false] inside the loop sets [failed]. *)
Definition parseInput (argc : Z) (argv : list String.string) (self : PmergeMe)
    : option (bool * PmergeMe * list String.string) :=
  if argc <? 2 then Some (false, self, ["Error: no input provided"%string])
  else
    '(self, _, failed) ←
      while (S (Z.to_nat argc))
        (fun '(_, i, failed) => Some ((i <? argc) && negb failed))
        (fun '(self, i, _) =>
           arg ← vec_get argv i;
           valid ← isValidNumber arg;
           if negb valid then Some (self, i, true)
           else
             num ← atoi arg;
             Some (mkPmergeMe (push_back (_vectorData self) num)
                              (push_back (_dequeData self) num),
                   i + 1, false))
        (self, 1, false);
    if failed : bool then Some (false, self, ["Error"%string])
    else Some (true, self, []).

(** ** Vocabulary of the statements *)

(** The sub-range [left .. right] of a container. *)
Definition slice (l : list Z) (left right : Z) : list Z :=
  take (Z.to_nat (right - left + 1)) (drop (Z.to_nat left) l).

(** The pairing path leaves its last element unpaired when the length is odd;
    [straggler_dropped] tells when that element is the sentinel [-1] of
    [int straggler = -1]. *)
Definition straggler_dropped (arr : list Z) : bool :=
  (10 <? vec_size arr) && Z.odd (vec_size arr) &&
  bool_decide (last arr = Some (-1)).

(** Sorting moves a -1 that is the largest element to the end.
    [sentinel_surfaces] tells when this turns a list that keeps its
    straggler into one that loses it: the length is odd and above 10, the
    last element is not -1, and -1 is in the list and is its largest
    element. *)
Definition sentinel_surfaces (arr : list Z) : bool :=
  (10 <? vec_size arr) && Z.odd (vec_size arr) &&
  negb (bool_decide (last arr = Some (-1))) &&
  bool_decide (-1 ∈ arr) && forallb (fun x => x <=? -1) arr.

(** A container whose size fits the [int n] of the sorters. *)
Definition size_fits_int (arr : list Z) : Prop := vec_size arr <= INT_MAX.

(** What a sorter owes for the input [arr]: an ascending [out] with the
    elements of [arr], less the dropped straggler. *)
Definition sorted_output (arr out : list Z) : Prop :=
  StronglySorted Z.le out /\
  (straggler_dropped arr = false -> out ≡ₚ arr) /\
  (straggler_dropped arr = true -> -1 :: out ≡ₚ arr).

(** The decimal value of a list of digits. *)
Definition decimal (s : list Ascii.ascii) : Z :=
  fold_left (fun acc c => 10 * acc + (char_code c - 48)) s 0.

(** [J k] and [J (S k)] together, in linear time. *)
Fixpoint J_pair (k : nat) : Z * Z :=
  match k with
  | O => (0, 1)
  | S k' => let '(a, b) := J_pair k' in (b, b + 2 * a)
  end.

(** [pend[k]], for an index known to be in range. *)
Definition pend_at (pend : list Z) (k : Z) : Z := default 0 (pend !! Z.to_nat k).

(** The indices [hi, hi - 1, ..., lo + 1]. *)
Definition desc (hi lo : Z) : list Z := reverse (seqZ (lo + 1) (hi - lo)).

(** The blocks of the planner: after each boundary, the indices from it down
    to the one above the previous boundary. *)
Fixpoint desc_blocks (prev : Z) (bounds : list Z) : list Z :=
  match bounds with
  | [] => []
  | cur :: rest => desc cur prev ++ desc_blocks cur rest
  end.

(** The pairs of consecutive elements, smaller element first; an unpaired
    last element is left out. *)
Fixpoint pair_up (l : list Z) : list Pair :=
  match l with
  | a :: (b :: rest) => (Z.min a b, Z.max a b) :: pair_up rest
  | _ => []
  end.

(** The number a decimal argument stands for, and the object with the
    numbers [vals] pushed to both containers. *)
Definition arg_value (arg : String.string) : Z := decimal (chars arg).

Definition append_values (self : PmergeMe) (vals : list Z) : PmergeMe :=
  mkPmergeMe (_vectorData self ++ vals) (_dequeData self ++ vals).

(** * Proofs *)

(** ** Loop rules *)

Section while_rules.
Context {St : Type} (cond : St -> option bool) (body : St -> option St).

Lemma while_fuel_mono fuel fuel' s r :
  while fuel cond body s = Some r -> (fuel <= fuel')%nat ->
  while fuel' cond body s = Some r.
Proof.
  revert fuel' s. induction fuel as [|fuel IH]; intros fuel' s Hr Hle; [done|].
  destruct fuel' as [|fuel']; [lia|]. simpl in *.
  destruct (cond s) as [[|]|]; simpl in *; [|done..].
  destruct (body s) as [s'|]; simpl in *; [|done].
  apply IH; [done|lia].
Qed.

(** Total correctness from an invariant and a variant. *)
Lemma while_rule (Inv : St -> Prop) (m : St -> Z) :
  (forall s, Inv s ->
     0 <= m s /\
     exists b, cond s = Some b /\
       (b = true -> exists s', body s = Some s' /\ Inv s' /\ m s' < m s)) ->
  forall fuel s, Inv s -> m s < Z.of_nat fuel ->
    exists s', while fuel cond body s = Some s' /\ Inv s' /\ cond s' = Some false.
Proof.
  intros Hstep fuel. induction fuel as [|fuel IH]; intros s HI Hm.
  - destruct (Hstep s HI) as [? _]. lia.
  - destruct (Hstep s HI) as (Hpos & b & Hc & Hb). simpl. rewrite Hc. simpl.
    destruct b.
    + destruct (Hb eq_refl) as (s' & Hbody & HI' & Hdec).
      rewrite Hbody. simpl. apply IH; [done|lia].
    + exists s. done.
Qed.

(** A loop whose condition stays true never produces a result. *)
Lemma while_diverges (Inv : St -> Prop) :
  (forall s, Inv s ->
     cond s = None \/
     (cond s = Some true /\
      (body s = None \/ exists s', body s = Some s' /\ Inv s'))) ->
  forall fuel s, Inv s -> while fuel cond body s = None.
Proof.
  intros Hstep fuel. induction fuel as [|fuel IH]; intros s HI; [done|].
  simpl. destruct (Hstep s HI) as [->|(-> & [->|(s' & -> & HI')])]; simpl; auto.
Qed.

Lemma while_unfold (fuel : nat) (s : St) :
  while (S fuel) cond body s
  = (b ← cond s; if b : bool then s' ← body s; while fuel cond body s' else Some s).
Proof. reflexivity. Qed.

(** Partial correctness: what a result satisfies, when there is one. *)
Lemma while_partial (Inv : St -> Prop) :
  (forall s s', Inv s -> cond s = Some true -> body s = Some s' -> Inv s') ->
  forall fuel s r, Inv s -> while fuel cond body s = Some r ->
    Inv r /\ cond r = Some false.
Proof.
  intros Hstep fuel. induction fuel as [|fuel IH]; intros s r HI Hr; [done|].
  rewrite while_unfold in Hr.
  destruct (cond s) as [[|]|] eqn:Hc; simpl in Hr; [|by simplify_eq|done].
  destruct (body s) as [s'|] eqn:Hb; simpl in Hr; [|done].
  eapply IH; [|done]. by eapply Hstep.
Qed.

(** Fuel above the variant changes nothing, also when the body fails. *)
Lemma while_fuel_enough (Inv : St -> Prop) (m : St -> Z) :
  (forall s, Inv s ->
     0 <= m s /\
     exists b, cond s = Some b /\
       (b = true ->
        body s = None \/ exists s', body s = Some s' /\ Inv s' /\ m s' < m s)) ->
  forall fuel fuel' s, Inv s -> m s < Z.of_nat fuel -> (fuel <= fuel')%nat ->
    while fuel' cond body s = while fuel cond body s.
Proof.
  intros Hstep fuel. induction fuel as [|fuel IH]; intros fuel' s HI Hm Hle.
  - destruct (Hstep s HI) as [? _]. lia.
  - destruct fuel' as [|fuel']; [lia|].
    destruct (Hstep s HI) as (Hpos & b & Hc & Hb). simpl. rewrite Hc. simpl.
    destruct b; [|done].
    destruct (Hb eq_refl) as [->|(s' & -> & HI' & Hdec)]; [done|].
    simpl. apply IH; [done|lia|lia].
Qed.

(** A body that succeeds wherever another does gives the same results. *)
Lemma while_refine (body' : St -> option St) :
  (forall s s', body s = Some s' -> body' s = Some s') ->
  forall fuel s r, while fuel cond body s = Some r ->
    while fuel cond body' s = Some r.
Proof.
  intros Href fuel. induction fuel as [|fuel IH]; intros s r Hr; [done|].
  simpl in *. destruct (cond s) as [[|]|]; simpl in *; [|done..].
  destruct (body s) as [s'|] eqn:Hb; simpl in Hr; [|done].
  rewrite (Href s s' Hb). simpl. by apply IH.
Qed.

(** Two bodies that agree on the states of an invariant give the same
    loop. *)
Lemma while_agree (body' : St -> option St) (Inv : St -> Prop) :
  (forall s, Inv s -> cond s = Some true -> body' s = body s) ->
  (forall s s', Inv s -> cond s = Some true -> body s = Some s' -> Inv s') ->
  forall fuel s, Inv s -> while fuel cond body' s = while fuel cond body s.
Proof.
  intros Heq Hstep fuel. induction fuel as [|fuel IH]; intros s HI; [done|].
  simpl. destruct (cond s) as [[|]|] eqn:Hc; simpl; [|done..].
  rewrite (Heq s HI Hc).
  destruct (body s) as [s'|] eqn:Hb; simpl; [|done].
  apply IH. by eapply Hstep.
Qed.

End while_rules.

(** Loops are unfolded by the rules above only. *)
Arguments while : simpl never.

(** [while_inv Inv m] finds the loop of the goal and asks for the premises of
    [while_rule]: the step, the invariant on entry and the fuel. *)
Ltac while_inv Inv m :=
  match goal with
  | |- context [while ?f0 ?c0 ?b0 ?s0] =>
      let Hw := fresh "Hw" in
      assert (exists s', while f0 c0 b0 s0 = Some s' /\ Inv s' /\
                         c0 s' = Some false) as Hw;
      [apply (while_rule c0 b0 Inv m)|]
  end.

(** ** Container accesses *)

Lemma vec_size_app {A} (l1 l2 : list A) :
  vec_size (l1 ++ l2) = vec_size l1 + vec_size l2.
Proof. unfold vec_size. rewrite length_app. lia. Qed.

Lemma vec_size_cons {A} (x : A) (l : list A) :
  vec_size (x :: l) = 1 + vec_size l.
Proof. unfold vec_size. simpl. lia. Qed.

Lemma vec_size_nil {A} : vec_size (@nil A) = 0.
Proof. done. Qed.

Lemma vec_size_nonneg {A} (l : list A) : 0 <= vec_size l.
Proof. unfold vec_size. lia. Qed.

Lemma vec_get_lookup {A} (v : list A) (i : Z) (x : A) :
  vec_get v i = Some x <-> 0 <= i /\ v !! Z.to_nat i = Some x.
Proof.
  unfold vec_get. destruct (Z.leb_spec 0 i); split; try done; try tauto.
  intros [? _]. lia.
Qed.

Lemma vec_get_middle {A} (l1 l2 : list A) (x : A) (i : Z) :
  i = vec_size l1 -> vec_get (l1 ++ x :: l2) i = Some x.
Proof.
  intros ->. apply vec_get_lookup. split; [apply vec_size_nonneg|].
  unfold vec_size. rewrite Nat2Z.id. apply list_lookup_middle. done.
Qed.

Lemma vec_get_in_range {A} (v : list A) (i : Z) :
  0 <= i < vec_size v -> exists x, vec_get v i = Some x /\ v !! Z.to_nat i = Some x.
Proof.
  intros Hi. destruct (lookup_lt_is_Some_2 v (Z.to_nat i)) as [x Hx].
  - unfold vec_size in Hi. lia.
  - exists x. split; [|done]. apply vec_get_lookup. split; [lia|done].
Qed.

Lemma vec_set_middle {A} (l1 l2 : list A) (x y : A) (i : Z) :
  i = vec_size l1 -> vec_set (l1 ++ y :: l2) i x = Some (l1 ++ x :: l2).
Proof.
  intros ->. unfold vec_set.
  rewrite vec_size_app, vec_size_cons.
  pose proof (vec_size_nonneg l1). pose proof (vec_size_nonneg l2).
  destruct (Z.leb_spec 0 (vec_size l1)); [|lia].
  destruct (Z.ltb_spec (vec_size l1) (vec_size l1 + (1 + vec_size l2))); [|lia].
  simpl. f_equal. unfold vec_size. rewrite Nat2Z.id.
  rewrite insert_app_r_alt by lia. by rewrite Nat.sub_diag.
Qed.

Lemma vec_insert_split {A} (l1 l2 : list A) (x : A) (pos : Z) :
  pos = vec_size l1 -> vec_insert (l1 ++ l2) pos x = Some (l1 ++ x :: l2).
Proof.
  intros ->. unfold vec_insert. rewrite vec_size_app.
  pose proof (vec_size_nonneg l1). pose proof (vec_size_nonneg l2).
  destruct (Z.leb_spec 0 (vec_size l1)); [|lia].
  destruct (Z.leb_spec (vec_size l1) (vec_size l1 + vec_size l2)); [|lia].
  simpl. unfold vec_size. rewrite Nat2Z.id.
  by rewrite take_app_length, drop_app_length.
Qed.

Lemma vec_insert_in_range {A} (v : list A) (x : A) (pos : Z) :
  0 <= pos <= vec_size v ->
  vec_insert v pos x = Some (take (Z.to_nat pos) v ++ x :: drop (Z.to_nat pos) v).
Proof.
  intros Hp. unfold vec_insert.
  destruct (Z.leb_spec 0 pos); [|lia].
  destruct (Z.leb_spec pos (vec_size v)); [|lia]. done.
Qed.

(** ** Arithmetic on [int] *)

Lemma in_int_ok (z : Z) : INT_MIN <= z <= INT_MAX -> in_int z = Some z.
Proof.
  intros Hz. unfold in_int.
  destruct (Z.leb_spec INT_MIN z); [|lia].
  by destruct (Z.leb_spec z INT_MAX); [|lia].
Qed.

Lemma in_int_Some (z r : Z) :
  in_int z = Some r -> r = z /\ INT_MIN <= z <= INT_MAX.
Proof.
  unfold in_int.
  destruct (Z.leb_spec INT_MIN z); [|done].
  destruct (Z.leb_spec z INT_MAX); [|done].
  simpl. intros ?. simplify_eq. lia.
Qed.

(** ** The Jacobsthal numbers *)

Lemma wrap64_small z : 0 <= z <= SIZE_MAX -> wrap64 z = z.
Proof. unfold wrap64, SIZE_MAX. intros. apply Z.mod_small. lia. Qed.

Lemma wrap64_range z : 0 <= wrap64 z <= SIZE_MAX.
Proof.
  unfold wrap64, SIZE_MAX.
  pose proof (Z.mod_pos_bound z (2 ^ 64)). lia.
Qed.

Lemma wrap64_step a b : wrap64 (wrap64 a + 2 * wrap64 b) = wrap64 (a + 2 * b).
Proof.
  unfold wrap64.
  rewrite Zplus_mod_idemp_l, Z.add_comm, <- Zplus_mod_idemp_l.
  rewrite Zmult_mod_idemp_r, Zplus_mod_idemp_l. f_equal. lia.
Qed.

Lemma J_step (k : nat) : J (S (S k)) = J (S k) + 2 * J k.
Proof. reflexivity. Qed.

(** What the loop of [jacobsthal] computes: the reference sequence modulo
    [2^64]. *)
Lemma jacobsthal_wrap (n : Z) :
  0 <= n < SIZE_MAX -> jacobsthal n = Some (wrap64 (J (Z.to_nat n))).
Proof.
  intros Hn. unfold jacobsthal.
  destruct (Z.eqb_spec n 0) as [->|H0]; [done|].
  destruct (Z.eqb_spec n 1) as [->|H1]; [done|].
  set (Inv := fun s : Z * Z * Z * Z =>
    let '(i, p2, p1, c) := s in
    2 <= i <= n + 1 /\ p2 = wrap64 (J (Z.to_nat (i - 2))) /\
    p1 = wrap64 (J (Z.to_nat (i - 1))) /\ c = p1).
  set (m := fun s : Z * Z * Z * Z => let '(i, _, _, _) := s in n + 1 - i).
  edestruct (while_rule
    (fun '(i, _, _, _) => Some (i <=? n))
    (fun '(i, prev2, prev1, _) =>
       let current := wrap64 (prev1 + 2 * prev2) in
       Some (wrap64 (i + 1), prev1, current, current)) Inv m)
    as ([[[i p2] p1] c] & -> & (Hi & _ & Hp1 & Hc) & Hex).
  - intros [[[i p2] p1] c] (Hi & Hp2 & Hp1 & Hc). split; [simpl; lia|].
    eexists. split; [done|]. intros Hle. apply Z.leb_le in Hle.
    eexists. split; [done|]. simpl.
    rewrite (wrap64_small (i + 1)) by (unfold SIZE_MAX in *; lia).
    repeat split; try lia.
    + replace (i + 1 - 2) with (i - 1) by lia. done.
    + subst p1 p2. rewrite wrap64_step.
      replace (Z.to_nat (i + 1 - 1)) with (S (S (Z.to_nat (i - 2)))) by lia.
      rewrite J_step. do 3 f_equal. lia.
  - simpl. repeat split; try lia; done.
  - simpl. lia.
  - simpl. injection Hex as Hex. apply Z.leb_gt in Hex.
    subst c p1. do 3 f_equal. lia.
Qed.

Lemma J_pair_spec k : J_pair k = (J k, J (S k)).
Proof.
  induction k as [|k IH]; [done|].
  cbn [J_pair]. rewrite IH. by rewrite J_step.
Qed.

Lemma J_sum k : J (S k) + J k = 2 ^ Z.of_nat k.
Proof.
  induction k as [|k IH]; [done|].
  rewrite J_step, Nat2Z.inj_succ, Z.pow_succ_r by lia. lia.
Qed.

Lemma J_nonneg k : 0 <= J k.
Proof.
  enough (0 <= J k /\ 0 <= J (S k)) by tauto.
  induction k as [|k [IH1 IH2]]; [done|].
  split; [done|]. rewrite J_step. lia.
Qed.

Lemma J_le_pow k : J (S k) <= 2 ^ Z.of_nat k.
Proof. pose proof (J_sum k). pose proof (J_nonneg k). lia. Qed.

Lemma J_plus2 k : J (S (S k)) = J k + 2 ^ Z.of_nat k.
Proof. rewrite J_step. pose proof (J_sum k). lia. Qed.

Lemma J_pair_fst k : fst (J_pair k) = J k.
Proof. by rewrite J_pair_spec. Qed.

Lemma J_65 : J 65 = J65.
Proof. rewrite <- (J_pair_fst 65). vm_compute. reflexivity. Qed.

Lemma J_below_64 k : (k <= 64)%nat -> J k <= 2 ^ 63.
Proof.
  intros Hk. destruct k as [|k]; [done|].
  etrans; [apply J_le_pow|]. apply Z.pow_le_mono_r; lia.
Qed.

(** Up to index 65 the reference numbers fit a [size_t]. *)
Lemma J_fits k : (k <= 65)%nat -> 0 <= J k <= J65.
Proof.
  intros Hk. split; [apply J_nonneg|].
  destruct (decide (k = 65%nat)) as [->|]; [by rewrite J_65|].
  etrans; [apply J_below_64; lia|]. by vm_compute.
Qed.

(** From index 64 on, the wrapped numbers repeat with period 2. *)
Lemma wrap64_J_period k :
  (64 <= k)%nat -> wrap64 (J (S (S k))) = wrap64 (J k).
Proof.
  intros Hk. rewrite J_plus2. unfold wrap64.
  replace (Z.of_nat k) with (Z.of_nat (k - 64) + 64) by lia.
  rewrite Z.pow_add_r by lia. apply Z.mod_add. lia.
Qed.

Lemma wrap64_J_bound k : wrap64 (J k) <= J65.
Proof.
  enough (wrap64 (J k) <= J65 /\ wrap64 (J (S k)) <= J65) by tauto.
  induction k as [|k [IH1 IH2]]; [by vm_compute|].
  split; [done|].
  destruct (decide (64 <= k)%nat).
  - by rewrite wrap64_J_period.
  - rewrite wrap64_small; [apply J_fits; lia|].
    pose proof (J_fits (S (S k))). unfold J65, SIZE_MAX in *. lia.
Qed.

Lemma jacobsthal_exact (n : Z) :
  0 <= n <= 65 -> jacobsthal n = Some (J (Z.to_nat n)).
Proof.
  intros Hn. rewrite jacobsthal_wrap by (unfold SIZE_MAX; lia).
  f_equal. apply wrap64_small.
  pose proof (J_fits (Z.to_nat n)). unfold J65, SIZE_MAX in *. lia.
Qed.

(** At [SIZE_MAX] the test [i <= n] of the loop never fails. *)
Lemma jacobsthal_diverges (n : Z) : n = SIZE_MAX -> jacobsthal n = None.
Proof.
  intros Hn. unfold jacobsthal.
  destruct (Z.eqb_spec n 0) as [H0|_]; [by rewrite Hn in H0|].
  destruct (Z.eqb_spec n 1) as [H1|_]; [by rewrite Hn in H1|].
  match goal with |- context [while ?f ?c ?b ?s] =>
    rewrite (while_diverges c b (fun '(i, _, _, _) => 0 <= i <= SIZE_MAX))
  end; [done| |by unfold SIZE_MAX].
  intros [[[i p2] p1] cu] Hi. right. split.
  - f_equal. apply Z.leb_le. lia.
  - right. eexists. split; [done|]. apply wrap64_range.
Qed.

(** Whatever the index, [jacobsthal] gives no number above J(65). *)
Lemma jacobsthal_bound (n v : Z) :
  0 <= n <= SIZE_MAX -> jacobsthal n = Some v -> 0 <= v <= J65.
Proof.
  intros Hn Hv. destruct (decide (n = SIZE_MAX)) as [Hmax|].
  - by rewrite jacobsthal_diverges in Hv.
  - rewrite jacobsthal_wrap in Hv by lia. simplify_eq.
    split; [apply wrap64_range|apply wrap64_J_bound].
Qed.

(** ** The insertion-order planner *)

Section planner.
Context (pendSize : Z).

(** The marker array and [order] agree: an index is in [order] iff it is
    marked, and no index is in [order] twice. *)
Definition marked (order : list Z) (inserted : list bool) : Prop :=
  length inserted = Z.to_nat pendSize /\ NoDup order /\
  forall x, x ∈ order <-> 0 <= x < pendSize /\ inserted !! Z.to_nat x = Some true.

Lemma marked_init : marked [] (replicate (Z.to_nat pendSize) false).
Proof.
  split; [apply length_replicate|]. split; [constructor|].
  intros x. split; [by intros ?%elem_of_nil|].
  intros [_ [? _]%lookup_replicate]. done.
Qed.

Lemma marked_push order inserted j :
  marked order inserted -> 0 <= j < pendSize ->
  inserted !! Z.to_nat j = Some false ->
  marked (push_back order j) (<[Z.to_nat j := true]> inserted).
Proof.
  intros (Hlen & Hnd & Hiff) Hj Hfalse. unfold push_back.
  split; [by rewrite length_insert|]. split.
  - apply NoDup_app. split; [done|]. split; [|apply NoDup_singleton].
    intros x Hx ->%list_elem_of_singleton.
    apply Hiff in Hx as [_ Hx]. congruence.
  - intros x. rewrite elem_of_app, list_elem_of_singleton, Hiff.
    destruct (decide (x = j)) as [->|Hne].
    + rewrite list_lookup_insert_eq by lia. tauto.
    + destruct (decide (0 <= x)); [|lia].
      rewrite list_lookup_insert_ne by lia. tauto.
Qed.

Lemma marked_get order inserted j :
  marked order inserted -> 0 <= j < pendSize ->
  exists b, vec_get inserted j = Some b /\ inserted !! Z.to_nat j = Some b.
Proof.
  intros (Hlen & _) Hj. apply vec_get_in_range. unfold vec_size. lia.
Qed.

Lemma marked_set order inserted j b :
  marked order inserted -> 0 <= j < pendSize ->
  vec_set inserted j b = Some (<[Z.to_nat j := b]> inserted).
Proof.
  intros (Hlen & _) Hj. unfold vec_set, vec_size.
  destruct (Z.leb_spec 0 j); [|lia].
  destruct (Z.ltb_spec j (Z.of_nat (length inserted))); [done|lia].
Qed.

End planner.

(** The blocks of the order: [desc] and [desc_blocks]. *)

Lemma desc_nil (hi lo : Z) : hi <= lo -> desc hi lo = [].
Proof. intros. unfold desc. by rewrite seqZ_nil by lia. Qed.

Lemma desc_snoc (hi j : Z) : j <= hi -> desc hi j ++ [j] = desc hi (j - 1).
Proof.
  intros Hj. unfold desc.
  rewrite (seqZ_cons (j - 1 + 1)) by lia. rewrite reverse_cons.
  repeat f_equal; lia.
Qed.

Lemma elem_of_desc (hi lo x : Z) : x ∈ desc hi lo <-> lo < x <= hi.
Proof. unfold desc. rewrite elem_of_reverse, elem_of_seqZ. lia. Qed.

Lemma default_last_cons (prev b : Z) (bounds : list Z) :
  default prev (last (b :: bounds)) = default b (last bounds).
Proof.
  destruct bounds as [|x l]; [done|]. rewrite last_cons_cons.
  destruct (last (x :: l)) eqn:Hl; [done|]. by apply last_None in Hl.
Qed.

Lemma desc_blocks_snoc (prev cur : Z) (bounds : list Z) :
  desc_blocks prev (bounds ++ [cur])
  = desc_blocks prev bounds ++ desc cur (default prev (last bounds)).
Proof.
  revert prev. induction bounds as [|b bounds IH]; intros prev.
  - simpl. by rewrite app_nil_r.
  - rewrite default_last_cons. simpl. by rewrite IH, <- app_assoc.
Qed.

Lemma elem_of_desc_blocks (prev : Z) (bounds : list Z) (x : Z) :
  StronglySorted Z.le (prev :: bounds) ->
  x ∈ desc_blocks prev bounds <-> prev < x <= default prev (last bounds).
Proof.
  revert prev. induction bounds as [|b bounds IH]; intros prev Hs.
  - simpl. rewrite elem_of_nil. lia.
  - cbn [desc_blocks]. apply StronglySorted_cons in Hs as [Hall Hs].
    apply Forall_cons in Hall as [Hb Hall].
    rewrite elem_of_app, elem_of_desc, (IH b Hs).
    assert (b <= default b (last bounds)) as Hlast.
    { destruct (last bounds) as [z|] eqn:Hz; simpl; [|lia].
      apply StronglySorted_cons in Hs as [Hall' _].
      rewrite last_lookup in Hz. by eapply Forall_lookup_1 in Hall'. }
    rewrite default_last_cons. lia.
Qed.

Lemma J_mono (k : nat) : J (S k) <= J (S (S k)).
Proof. rewrite J_step. pose proof (J_nonneg k). lia. Qed.

Lemma J_mono_le (k k' : nat) : (1 <= k <= k')%nat -> J k <= J k'.
Proof.
  intros [Hk Hle]. induction Hle as [|k' Hle IH]; [done|].
  etrans; [apply IH|]. destruct k' as [|k']; [lia|]. apply J_mono.
Qed.

Lemma J_ge_index (k : nat) : (3 <= k)%nat -> Z.of_nat k <= J k.
Proof.
  induction 1 as [|k Hk IH]; [done|].
  destruct k as [|k]; [lia|]. rewrite J_step.
  assert (J 1 <= J k) as H1 by (apply J_mono_le; lia).
  change (J 1) with 1 in H1. lia.
Qed.

Lemma J_seq_sorted (c : nat) : StronglySorted Z.le (J <$> seq 3 c).
Proof.
  induction c as [|c IH]; [constructor|].
  rewrite seq_S, fmap_app. apply StronglySorted_app_2; [|done|repeat constructor].
  intros x1 x2 (k & -> & Hk)%list_elem_of_fmap ->%list_elem_of_singleton.
  apply elem_of_seq in Hk. apply J_mono_le. lia.
Qed.

Lemma bounds_sorted (c : nat) (pendSize : Z) :
  1 <= pendSize -> Forall (fun x => x < pendSize) (J <$> seq 3 c) ->
  StronglySorted Z.le (0 :: (J <$> seq 3 c) ++ [pendSize - 1]).
Proof.
  intros Hp Hall. constructor.
  - apply StronglySorted_app_2; [|apply J_seq_sorted|repeat constructor].
    intros x1 x2 Hx1 ->%list_elem_of_singleton.
    rewrite Forall_forall in Hall. specialize (Hall x1 Hx1). lia.
  - apply Forall_app. split; [|apply Forall_singleton; lia].
    apply Forall_fmap, Forall_forall. intros k _. apply J_nonneg.
Qed.

Section planner_run.
Context (al : Allocator) (pendSize : Z).
Context (Hwords : pendSize <= max_size_ts al).

Local Arguments J : simpl never.

Lemma push_back_alloc_small (v : list Z) (x : Z) :
  vec_size v < pendSize -> push_back_alloc al v x = Some (push_back v x).
Proof.
  intros Hv. unfold push_back_alloc.
  by destruct (Z.ltb_spec (vec_size v) (max_size_ts al)); [|lia].
Qed.

(** A vector of distinct indices below [pendSize] has at most [pendSize]
    elements. *)
Lemma indices_size (l : list Z) :
  NoDup l -> (forall x, x ∈ l -> 0 <= x < pendSize) ->
  vec_size l <= Z.max 0 pendSize.
Proof.
  intros Hnd Hin.
  assert (l ⊆+ seqZ 0 pendSize) as Hsub.
  { apply NoDup_submseteq; [done|]. intros x Hx. apply elem_of_seqZ.
    specialize (Hin x Hx). lia. }
  apply submseteq_length in Hsub. rewrite length_seqZ in Hsub.
  unfold vec_size. lia.
Qed.

Lemma push_back_alloc_fresh (order : list Z) (j : Z) :
  NoDup (push_back order j) ->
  (forall x, x ∈ push_back order j -> 0 <= x < pendSize) ->
  push_back_alloc al order j = Some (push_back order j).
Proof.
  intros Hnd Hin. apply push_back_alloc_small.
  pose proof (indices_size (push_back order j) Hnd Hin) as Hsz.
  unfold push_back in Hsz.
  rewrite vec_size_app, vec_size_cons, vec_size_nil in Hsz.
  pose proof (vec_size_nonneg order). lia.
Qed.

Lemma push_back_alloc_marked (order : list Z) (inserted : list bool) (j : Z) :
  marked pendSize (push_back order j) inserted ->
  push_back_alloc al order j = Some (push_back order j).
Proof.
  intros (_ & Hnd & Hiff). apply push_back_alloc_fresh; [done|].
  intros x Hx. by apply Hiff in Hx as [? _].
Qed.

(** The Jacobsthal numbers below [pendSize] are fewer than [pendSize]. *)
Lemma bounds_count (c : nat) :
  1 <= pendSize -> Forall (fun x => x < pendSize) (J <$> seq 3 c) ->
  Z.of_nat c < pendSize.
Proof.
  intros Hp Hall. destruct c as [|c]; [lia|].
  assert (J (3 + c) < pendSize) as HJ.
  { rewrite Forall_forall in Hall. apply Hall, list_elem_of_fmap.
    exists (3 + c)%nat. split; [done|]. apply elem_of_seq. lia. }
  pose proof (J_ge_index (3 + c)). lia.
Qed.

(** The boundaries: the Jacobsthal numbers J(3), J(4), ... below [pendSize],
    then [pendSize - 1]. *)
Lemma jacobsthalNums_loop_exact :
  1 <= pendSize <= J65 ->
  exists c : nat,
    jacobsthalNums_loop al jacobsthalNums_fuel pendSize
      = Some ((J <$> seq 3 c) ++ [pendSize - 1]) /\
    Forall (fun x => x < pendSize) (J <$> seq 3 c) /\
    pendSize <= J (3 + c).
Proof.
  intros Hp. unfold jacobsthalNums_loop.
  while_inv
    (fun s : list Z * Z * bool => let '(nums, index, running) := s in
       if running
       then 3 <= index <= 65 /\ nums = J <$> seq 3 (Z.to_nat index - 3) /\
            Forall (fun x => x < pendSize) nums
       else exists c : nat, nums = (J <$> seq 3 c) ++ [pendSize - 1] /\
            Forall (fun x => x < pendSize) (J <$> seq 3 c) /\
            pendSize <= J (3 + c))
    (fun s : list Z * Z * bool =>
       let '(_, index, running) := s in if running then 66 - index else 0);
    [| | |destruct Hw as ([[nums index] running] & -> & Hinv & Hex)].
  - intros [[nums index] running] Hinv. destruct running.
    + destruct Hinv as (Hi & -> & Hall). split; [lia|].
      eexists. split; [done|]. intros _.
      rewrite jacobsthal_exact by lia. simpl.
      set (c := (Z.to_nat index - 3)%nat) in *.
      replace (Z.to_nat index) with (3 + c)%nat by lia.
      assert (vec_size (J <$> seq 3 c) < pendSize) as Hroom.
      { unfold vec_size. rewrite length_fmap, length_seq.
        apply bounds_count; [lia|done]. }
      rewrite !push_back_alloc_small by done.
      destruct (Z.leb_spec pendSize (J (3 + c))) as [Hle|Hlt]; simpl.
      * eexists. split; [done|]. split; [|lia]. by exists c.
      * assert (index <> 65).
        { intros ->. subst c. change (3 + (Z.to_nat 65 - 3))%nat with 65%nat in Hlt.
          rewrite J_65 in Hlt. lia. }
        eexists. split; [done|]. simpl.
        rewrite wrap64_small by (unfold SIZE_MAX; lia).
        split; [|lia]. split; [lia|].
        replace (Z.to_nat (index + 1) - 3)%nat with (S c) by lia.
        unfold push_back. rewrite seq_S, fmap_app. split; [done|].
        apply Forall_app. split; [done|]. by apply Forall_singleton.
    + split; [done|]. by exists false.
  - simpl. split; [lia|]. split; [done|]. constructor.
  - unfold jacobsthalNums_fuel. simpl. lia.
  - simpl. destruct running; [done|]. destruct Hinv as (c & -> & Hall & Hle).
    by exists c.
Qed.

(** One block, when none of its indices is in [order] yet. *)
Lemma planner_block_exact order inserted prevJacob currentJacob fuel :
  marked pendSize order inserted -> 0 <= prevJacob ->
  currentJacob < pendSize ->
  (forall x, x ∈ order -> ~ prevJacob < x <= currentJacob) ->
  Z.max 0 (currentJacob - prevJacob) < Z.of_nat fuel ->
  exists inserted' j,
    while fuel
      (fun '(_, _, j) => Some (prevJacob <? j))
      (fun '(order, inserted, j) =>
         fresh ← (if j <? pendSize
                  then b ← vec_get inserted j; Some (negb b)
                  else Some false);
         if fresh : bool
         then order ← push_back_alloc al order j;
              inserted ← vec_set inserted j true;
              Some (order, inserted, j - 1)
         else Some (order, inserted, j - 1))
      (order, inserted, currentJacob)
    = Some (order ++ desc currentJacob prevJacob, inserted', j) /\
    marked pendSize (order ++ desc currentJacob prevJacob) inserted'.
Proof.
  intros HI Hprev Hcur Hfresh Hfuel.
  while_inv
    (fun s : list Z * list bool * Z => let '(o, ins, j) := s in
       marked pendSize o ins /\ j <= currentJacob /\
       (prevJacob <= j \/ j = currentJacob) /\ o = order ++ desc currentJacob j)
    (fun s : list Z * list bool * Z => let '(_, _, j) := s in
       Z.max 0 (j - prevJacob));
    [| | |destruct Hw as ([[o ins] j] & -> & (Hm & Hj & Hj' & ->) & Hex)].
  - intros [[o ins] j] (Hm & Hj & Hj' & ->). split; [lia|].
    eexists. split; [done|]. intros Hlt%Z.ltb_lt.
    destruct (Z.ltb_spec j pendSize) as [_|?]; [|lia]. simpl.
    destruct (marked_get pendSize _ ins j Hm) as (b & -> & Hb); [lia|]. simpl.
    destruct b; simpl.
    + exfalso. destruct Hm as (_ & _ & Hiff).
      assert (j ∈ order ++ desc currentJacob j) as Hin by (apply Hiff; split; [lia|done]).
      apply elem_of_app in Hin as [Hin|Hin].
      * apply (Hfresh j Hin). lia.
      * apply elem_of_desc in Hin. lia.
    + pose proof (marked_push pendSize _ ins j Hm ltac:(lia) Hb) as Hm'.
      rewrite (push_back_alloc_marked _ _ _ Hm'). simpl.
      erewrite marked_set by (done || lia). simpl.
      eexists. split; [done|]. split; [|lia].
      split; [done|]. split; [lia|]. split; [lia|].
      unfold push_back. by rewrite <- app_assoc, desc_snoc.
  - split; [done|]. split; [lia|]. split; [by right|].
    by rewrite desc_nil, app_nil_r.
  - lia.
  - injection Hex as Hex%Z.ltb_ge.
    assert (desc currentJacob j = desc currentJacob prevJacob) as <-.
    { destruct Hj' as [Hj'|Hj']; [by replace j with prevJacob by lia|].
      subst j. by rewrite !desc_nil by lia. }
    eauto.
Qed.

(** The blocks of a non-decreasing list of boundaries below [pendSize]. *)
Lemma planner_blocks_exact (nums : list Z) :
  StronglySorted Z.le (0 :: nums) -> Forall (fun x => x < pendSize) nums ->
  exists inserted prev i,
    while (S (length nums))
      (fun '(_, _, _, i) => Some (i <? vec_size nums))
      (fun '(order, inserted, prevJacob, i) =>
         currentJacob ← vec_get nums i;
         '(order, inserted, _) ←
           while (S (Z.to_nat (currentJacob - prevJacob)))
             (fun '(_, _, j) => Some (prevJacob <? j))
             (fun '(order, inserted, j) =>
                fresh ← (if j <? pendSize
                         then b ← vec_get inserted j; Some (negb b)
                         else Some false);
                if fresh : bool
                then order ← push_back_alloc al order j;
                     inserted ← vec_set inserted j true;
                     Some (order, inserted, j - 1)
                else Some (order, inserted, j - 1))
             (order, inserted, currentJacob);
         Some (order, inserted, currentJacob, i + 1))
      ([], replicate (Z.to_nat pendSize) false, 0, 0)
    = Some (desc_blocks 0 nums, inserted, prev, i) /\
    marked pendSize (desc_blocks 0 nums) inserted.
Proof.
  intros Hs Hlt.
  while_inv
    (fun s : list Z * list bool * Z * Z => let '(o, ins, prev, i) := s in
       marked pendSize o ins /\ 0 <= i <= vec_size nums /\
       o = desc_blocks 0 (take (Z.to_nat i) nums) /\
       prev = default 0 (last (take (Z.to_nat i) nums)))
    (fun s : list Z * list bool * Z * Z => let '(_, _, _, i) := s in
       vec_size nums - i);
    [| | |destruct Hw as ([[[o ins] prev] i] & -> & (Hm & Hi & -> & ->) & Hex)].
  - intros [[[o ins] prev] i] (Hm & Hi & -> & ->). split; [lia|].
    eexists. split; [done|]. intros Hi'%Z.ltb_lt.
    destruct (vec_get_in_range nums i) as (cur & -> & Hcur); [lia|]. simpl.
    assert (StronglySorted Z.le (0 :: take (Z.to_nat i) nums ++ [cur])) as Hs'.
    { rewrite <- (take_S_r _ _ _ Hcur). rewrite <- (take_drop (S (Z.to_nat i)) nums) in Hs.
      change (0 :: ?l ++ ?k) with ((0 :: l) ++ k) in Hs.
      by apply StronglySorted_app_1_l in Hs. }
    assert (StronglySorted Z.le (0 :: take (Z.to_nat i) nums)) as Hs0.
    { change (0 :: ?l ++ ?k) with ((0 :: l) ++ k) in Hs'.
      by apply StronglySorted_app_1_l in Hs'. }
    set (prev := default 0 (last (take (Z.to_nat i) nums))).
    assert (0 <= prev /\ prev <= cur) as [Hprev Hpc].
    { subst prev. destruct (last (take (Z.to_nat i) nums)) as [z|] eqn:Hz; simpl.
      - rewrite last_lookup in Hz.
        apply StronglySorted_cons in Hs0 as [Hall0 _].
        split; [by eapply Forall_lookup_1 in Hall0|].
        change (0 :: ?l ++ ?k) with ((0 :: l) ++ k) in Hs'.
        apply (StronglySorted_app_1_elem_of _ _ _ z cur) in Hs'; [done| |by left].
        right. by eapply list_elem_of_lookup_2.
      - split; [done|]. apply StronglySorted_cons in Hs' as [Hall _].
        apply Forall_app in Hall as [_ Hall]. inversion Hall. lia. }
    destruct (planner_block_exact (desc_blocks 0 (take (Z.to_nat i) nums)) ins
                prev cur (S (Z.to_nat (cur - prev))))
      as (ins' & j & -> & Hm'); [done|done| | |lia|].
    { by eapply Forall_lookup_1 in Hlt. }
    { intros x Hx. apply elem_of_desc_blocks in Hx; [|done]. fold prev in Hx. lia. }
    simpl. eexists. split; [done|]. split; [|lia].
    replace (Z.to_nat (i + 1)) with (S (Z.to_nat i)) by lia.
    rewrite (take_S_r _ _ _ Hcur), desc_blocks_snoc, last_snoc.
    split; [done|]. split; [lia|]. done.
  - split; [apply marked_init|]. pose proof (vec_size_nonneg nums). done.
  - unfold vec_size. lia.
  - injection Hex as Hex%Z.ltb_ge.
    rewrite take_ge in * by (unfold vec_size in *; lia). eauto.
Qed.

(** The whole order, when the allocator grants [pendSize] elements to
    [inserted] and to [order]: the blocks, then index 0, which the loop for
    the remaining elements adds; each index of [[0, pendSize)] is there
    once. *)
Lemma planner_exact (order0 : list Z) :
  1 <= pendSize <= J65 -> pendSize <= max_bools al ->
  exists (c : nat) (order : list Z),
    Forall (fun x => x < pendSize) (J <$> seq 3 c) /\ pendSize <= J (3 + c) /\
    order = desc_blocks 0 ((J <$> seq 3 c) ++ [pendSize - 1]) ++ [0] /\
    generateJacobsthalInsertionOrder al pendSize order0 = Some order /\
    NoDup order /\ forall x, x ∈ order <-> 0 <= x < pendSize.
Proof.
  intros Hp Hbools. unfold generateJacobsthalInsertionOrder, new_bools.
  destruct (Z.eqb_spec pendSize 0); [lia|].
  destruct (Z.leb_spec pendSize (max_bools al)); [simpl|lia].
  destruct jacobsthalNums_loop_exact as (c & -> & Hall & Hle); [lia|].
  exists c. eexists. split; [done|]. split; [done|]. split; [reflexivity|]. simpl.
  set (nums := (J <$> seq 3 c) ++ [pendSize - 1]).
  pose proof (bounds_sorted c pendSize ltac:(lia) Hall) as Hs. fold nums in Hs.
  destruct (planner_blocks_exact nums Hs)
    as (inserted & prev & i & -> & Hm).
  { apply Forall_app. split; [done|]. apply Forall_singleton. lia. }
  simpl.
  assert (forall x, x ∈ desc_blocks 0 nums <-> 0 < x <= pendSize - 1) as Hbody.
  { intros x. rewrite (elem_of_desc_blocks 0 nums x Hs).
    subst nums. by rewrite last_snoc. }
  destruct Hm as (Hlen & Hnd & Hiff).
  assert (NoDup (desc_blocks 0 nums ++ [0])) as Hnd0.
  { apply NoDup_app. split; [done|]. split; [|apply NoDup_singleton].
    intros x Hx ->%list_elem_of_singleton. apply Hbody in Hx. lia. }
  assert (forall x, x ∈ desc_blocks 0 nums ++ [0] <-> 0 <= x < pendSize) as Hall0.
  { intros x. rewrite elem_of_app, list_elem_of_singleton, Hbody. lia. }
  while_inv
    (fun s : list Z * Z => let '(o, i) := s in
       0 <= i <= pendSize /\
       o = desc_blocks 0 nums ++ (if 0 <? i then [0] else []))
    (fun s : list Z * Z => let '(_, i) := s in pendSize - i);
    [| | |destruct Hw as ([o k] & -> & (Hk & ->) & Hex)].
  - intros [o k] (Hk & ->). split; [lia|].
    eexists. split; [done|]. intros Hlt%Z.ltb_lt.
    destruct (vec_get_in_range inserted k) as (b & -> & Hb);
      [unfold vec_size; lia|]. simpl.
    destruct b; simpl.
    + eexists. split; [done|]. split; [|lia]. split; [lia|].
      assert (k ∈ desc_blocks 0 nums) as Hin by (apply Hiff; split; [lia|done]).
      apply Hbody in Hin. destruct (Z.ltb_spec 0 k); [|lia].
      by destruct (Z.ltb_spec 0 (k + 1)); [|lia].
    + destruct (Z.ltb_spec 0 k) as [Hpos|Hz].
      * exfalso. assert (k ∈ desc_blocks 0 nums) as Hin by (apply Hbody; lia).
        apply Hiff in Hin as [_ Hin]. congruence.
      * assert (k = 0) as -> by lia. rewrite app_nil_r.
        rewrite push_back_alloc_fresh by (done || intros; by apply Hall0). simpl.
        eexists. split; [done|]. split; [|lia]. split; [lia|]. done.
  - simpl. split; [lia|]. by rewrite app_nil_r.
  - lia.
  - simpl. injection Hex as Hex%Z.ltb_ge.
    destruct (Z.ltb_spec 0 k); [|lia]. done.
Qed.

End planner_run.

(** Above J(65) the boundary loop never leaves, and an allocation that is
    refused ends it at once: either way there are no boundaries. *)
Lemma jacobsthalNums_loop_diverges (al : Allocator) (pendSize : Z)
    (fuel : nat) :
  J65 < pendSize -> jacobsthalNums_loop al fuel pendSize = None.
Proof.
  intros Hp. unfold jacobsthalNums_loop.
  match goal with |- context [while ?f ?c ?b ?s] =>
    rewrite (while_diverges c b
      (fun '(_, index, running) => running = true /\ 0 <= index <= SIZE_MAX))
  end; [done| |by unfold SIZE_MAX].
  intros [[nums index] running] [-> Hi]. right. split; [done|].
  destruct (jacobsthal index) as [v|] eqn:Hv; [|by left].
  simpl. apply jacobsthal_bound in Hv; [|done].
  destruct (Z.leb_spec pendSize v); [lia|].
  destruct (push_back_alloc al nums v) as [nums'|]; [|by left].
  right. eexists. split; [done|]. split; [done|]. apply wrap64_range.
Qed.

(** The fuel of the boundary loop is adequate: more fuel gives the same
    outcome. *)
Lemma jacobsthalNums_loop_fuel (al : Allocator) (pendSize : Z) (fuel : nat) :
  (jacobsthalNums_fuel <= fuel)%nat ->
  jacobsthalNums_loop al fuel pendSize
  = jacobsthalNums_loop al jacobsthalNums_fuel pendSize.
Proof.
  intros Hfuel. destruct (Z.le_gt_cases pendSize J65) as [Hle|Hgt];
    [|by rewrite !jacobsthalNums_loop_diverges].
  unfold jacobsthalNums_loop.
  match goal with |- context [while fuel ?c ?b ?s] =>
    rewrite (fun H => while_fuel_enough c b
      (fun st : list Z * Z * bool => let '(_, index, running) := st in
         running = true -> 3 <= index <= 65)
      (fun st : list Z * Z * bool => let '(_, index, running) := st in
         if running then 66 - index else 0)
      H jacobsthalNums_fuel fuel)
  end; [done| |simpl; lia|unfold jacobsthalNums_fuel; simpl; lia|done].
  intros [[nums index] running] Hrun. split.
  { destruct running; [|done]. specialize (Hrun eq_refl). lia. }
  eexists. split; [done|]. intros ->. specialize (Hrun eq_refl).
  rewrite jacobsthal_exact by lia. simpl.
  pose proof (J_fits (Z.to_nat index)) as HJ.
  destruct (Z.leb_spec pendSize (J (Z.to_nat index))) as [Hle'|Hlt].
  - destruct (push_back_alloc al nums (pendSize - 1)); [simpl|by left].
    right. eexists. split; [done|]. split; [done|]. lia.
  - assert (index <> 65).
    { intros ->. change (Z.to_nat 65) with 65%nat in Hlt.
      rewrite J_65 in Hlt. lia. }
    destruct (push_back_alloc al nums _); [simpl|by left].
    right. eexists. split; [done|].
    rewrite wrap64_small by (unfold SIZE_MAX; lia). split; lia.
Qed.

Lemma planner_diverges (al : Allocator) (pendSize : Z) (order0 : list Z) :
  J65 < pendSize ->
  generateJacobsthalInsertionOrder al pendSize order0 = None.
Proof.
  intros Hp. unfold generateJacobsthalInsertionOrder.
  destruct (Z.eqb_spec pendSize 0) as [H0|_].
  - rewrite H0 in Hp. by vm_compute in Hp.
  - destruct (new_bools al pendSize false) as [inserted|]; [simpl|done].
    by rewrite jacobsthalNums_loop_diverges.
Qed.

(** The planner of the sorters returns, and its result holds each index of
    [[0, pendSize)] once. *)
Lemma planner_total (pendSize : Z) (order0 : list Z) :
  1 <= pendSize <= J65 ->
  exists order,
    generateJacobsthalInsertionOrder granting pendSize order0 = Some order /\
    NoDup order /\ forall x, x ∈ order <-> 0 <= x < pendSize.
Proof.
  intros Hp.
  assert (pendSize <= SIZE_MAX) as Hmax by (unfold J65, SIZE_MAX in *; lia).
  destruct (planner_exact granting pendSize Hmax order0 Hp Hmax)
    as (c & order & _ & _ & _ & Ho & Hnd & Hiff).
  eauto.
Qed.

(** C4, as the code has it: for every [pendSize] from 1 to J(65), the largest
    Jacobsthal number of a 64-bit [size_t], for which the allocator grants
    [pendSize] elements to [inserted] and to [order], the planner returns an
    order that contains every index of [0 .. pendSize-1] exactly once. *)
Theorem planner_permutation (al : Allocator) (pendSize : Z) (order0 : list Z) :
  1 <= pendSize -> pendSize <= J65 ->
  pendSize <= max_bools al -> pendSize <= max_size_ts al ->
  exists order,
    generateJacobsthalInsertionOrder al pendSize order0 = Some order /\
    order ≡ₚ seqZ 0 pendSize.
Proof.
  intros Hp1 Hp Hbools Hwords.
  destruct (planner_exact al pendSize Hwords order0)
    as (c & order & _ & _ & _ & Ho & Hnd & Hiff); [lia|done|].
  exists order. split; [done|].
  apply NoDup_Permutation; [done|apply NoDup_seqZ|].
  intros x. rewrite Hiff, elem_of_seqZ. lia.
Qed.

Lemma planner_permutation_witness :
  exists order,
    generateJacobsthalInsertionOrder (mkAllocator 12 12) 12 [] = Some order /\
    order ≡ₚ seqZ 0 12.
Proof. apply planner_permutation; by vm_compute. Defined.

(** C4 fails as stated: for [pendSize = SIZE_MAX] the planner returns no
    order, whatever the allocator.  An allocator that refuses [inserted] ends
    the call there; with any other, no Jacobsthal number of a [size_t]
    reaches [pendSize] and the boundary loop never leaves, whatever the
    fuel. *)
Lemma planner_no_order_at_SIZE_MAX :
  (forall al, generateJacobsthalInsertionOrder al SIZE_MAX [] = None) /\
  (forall al fuel, jacobsthalNums_loop al fuel SIZE_MAX = None) /\
  ~ exists al order,
      generateJacobsthalInsertionOrder al SIZE_MAX [] = Some order /\
      order ≡ₚ seqZ 0 SIZE_MAX.
Proof.
  split; [|split].
  - intros al. apply planner_diverges. by vm_compute.
  - intros al fuel. apply jacobsthalNums_loop_diverges. by vm_compute.
  - intros (al & order & Ho & _).
    rewrite planner_diverges in Ho; [done|by vm_compute].
Qed.

(** Sizes of concatenations, for [lia]. *)
Ltac vsize :=
  unfold vec_size in *;
  repeat progress (rewrite ?length_app, ?length_cons, ?length_nil in * );
  simpl length in *; lia.

(** ** Insertion sort of a range *)

Lemma vec_get_middle2 {A} (pre s1 l2 : list A) (y : A) (i : Z) :
  i = vec_size pre + vec_size s1 -> vec_get (pre ++ s1 ++ y :: l2) i = Some y.
Proof.
  intros ->. rewrite app_assoc. apply vec_get_middle. by rewrite vec_size_app.
Qed.

Lemma vec_set_middle2 {A} (pre s1 l2 : list A) (x d : A) (i : Z) :
  i = vec_size pre + vec_size s1 ->
  vec_set (pre ++ s1 ++ d :: l2) i x = Some (pre ++ s1 ++ x :: l2).
Proof.
  intros ->. rewrite !app_assoc. apply vec_set_middle. by rewrite vec_size_app.
Qed.

Section insertion_sort_proofs.
Context {A : Type} (gt : A -> A -> bool) (key : A -> Z).
Context (Hgt : forall x y, gt x y = (key x >? key y)).

(** The order the comparison sorts by. *)
Definition key_le (x y : A) : Prop := key x <= key y.

(** The inner loop shifts the elements above [x] one place to the right and
    stops below them. *)
Lemma shift_loop (pre s post : list A) (x : A) (left : Z) (fuel : nat) :
  left = vec_size pre -> vec_size s < Z.of_nat fuel ->
  exists s1 s2 d,
    while fuel
      (fun '(arr, j) =>
         if left <=? j then y ← vec_get arr j; Some (gt y x) else Some false)
      (fun '(arr, j) =>
         y ← vec_get arr j; arr ← vec_set arr (j + 1) y; Some (arr, j - 1))
      (pre ++ s ++ x :: post, left + vec_size s - 1)
    = Some (pre ++ s1 ++ d :: s2 ++ post, left + vec_size s1 - 1) /\
    s = s1 ++ s2 /\ Forall (fun y => key x < key y) s2 /\
    (forall s1' y, s1 = s1' ++ [y] -> key y <= key x).
Proof.
  intros Hleft Hfuel.
  while_inv
    (fun st : list A * Z => let '(arr, j) := st in
       exists s1 s2 d, s = s1 ++ s2 /\ arr = pre ++ s1 ++ d :: s2 ++ post /\
         j = left + vec_size s1 - 1 /\ Forall (fun y => key x < key y) s2)
    (fun st : list A * Z => let '(_, j) := st in j - left + 1);
    [| | |destruct Hw as ([arr j] & -> & (s1 & s2 & d & Hs & -> & -> & Hs2) & Hex)].
  - intros [arr j] (s1 & s2 & d & Hs & -> & -> & Hs2).
    pose proof (vec_size_nonneg s1). split; [lia|].
    destruct s1 as [|y s1' _] using rev_ind.
    { rewrite vec_size_nil.
      destruct (Z.leb_spec left (left + 0 - 1)); [lia|]. by exists false. }
    rewrite vec_size_app, vec_size_cons, vec_size_nil in *.
    pose proof (vec_size_nonneg s1').
    destruct (Z.leb_spec left (left + (vec_size s1' + (1 + 0)) - 1)); [|lia].
    assert (pre ++ (s1' ++ [y]) ++ d :: s2 ++ post
            = pre ++ s1' ++ y :: d :: s2 ++ post) as Harr
      by (by rewrite <- (app_assoc s1')).
    assert (vec_get (pre ++ (s1' ++ [y]) ++ d :: s2 ++ post)
              (left + (vec_size s1' + (1 + 0)) - 1) = Some y) as Hget.
    { rewrite Harr. apply vec_get_middle2. lia. }
    rewrite Hget. simpl. eexists. split; [done|]. intros Hy.
    rewrite (vec_set_middle2 pre (s1' ++ [y]) (s2 ++ post) y d) by vsize.
    simpl. eexists. split; [done|]. split; [|lia].
    exists s1', (y :: s2), y. split; [by rewrite Hs, <- app_assoc|].
    split; [by rewrite <- (app_assoc s1')|]. split; [lia|].
    constructor; [|done]. rewrite Hgt in Hy. lia.
  - exists s, [], x. rewrite app_nil_r. done.
  - pose proof (vec_size_nonneg s). lia.
  - exists s1, s2, d. split; [done|]. split; [done|]. split; [done|].
    intros s1' y ->. rewrite vec_size_app, vec_size_cons, vec_size_nil in Hex.
    pose proof (vec_size_nonneg s1').
    destruct (Z.leb_spec left (left + (vec_size s1' + (1 + 0)) - 1)); [|lia].
    rewrite <- (app_assoc s1') in Hex. simpl in Hex.
    erewrite vec_get_middle2 in Hex by lia. simpl in Hex.
    rewrite Hgt in Hex. injection Hex as Hex. lia.
Qed.

(** Placing [x] below the shifted elements keeps a sorted run sorted. *)
Lemma insert_keeps_sorted (s1 s2 : list A) (x : A) :
  StronglySorted key_le (s1 ++ s2) ->
  Forall (fun y => key x < key y) s2 ->
  (forall s1' y, s1 = s1' ++ [y] -> key y <= key x) ->
  StronglySorted key_le (s1 ++ x :: s2).
Proof.
  intros Hs Hs2 Hlast.
  apply StronglySorted_app in Hs as (Hcross & Hs1 & Hs2').
  apply StronglySorted_app. split; [|split; [done|]].
  - intros x1 x2 Hx1 [->|Hx2]%elem_of_cons; [|by apply Hcross].
    destruct s1 as [|y s1' _] using rev_ind; [by apply elem_of_nil in Hx1|].
    specialize (Hlast s1' y eq_refl).
    apply elem_of_app in Hx1 as [Hx1|Hx1];
      [|by apply list_elem_of_singleton in Hx1 as ->].
    apply StronglySorted_app in Hs1 as (Hc & _ & _).
    unfold key_le in *. etrans; [apply (Hc x1 y); [done|]|done].
    by apply list_elem_of_singleton.
  - constructor; [done|]. eapply Forall_impl; [done|].
    intros y Hy. unfold key_le. simpl in Hy. lia.
Qed.

(** The whole sort: the range [left .. right] ends sorted, with the elements
    it had, and the rest of the container is as it was. *)
Lemma insertion_sort_range_spec (pre mid post : list A) (left right : Z) :
  left = vec_size pre -> right = left + vec_size mid - 1 ->
  exists out,
    insertion_sort_range gt (pre ++ mid ++ post) left right
      = Some (pre ++ out ++ post) /\
    StronglySorted key_le out /\ out ≡ₚ mid.
Proof.
  intros Hleft Hright. unfold insertion_sort_range.
  while_inv
    (fun st : list A * Z => let '(arr, i) := st in
       exists s rest, arr = pre ++ s ++ rest ++ post /\
         StronglySorted key_le s /\ s ++ rest ≡ₚ mid /\
         (mid = [] /\ i = left + 1 \/ s <> [] /\ i = left + vec_size s))
    (fun st : list A * Z => let '(_, i) := st in Z.max 0 (right + 1 - i));
    [| | |destruct Hw as ([arr i] & -> & (s & rest & -> & Hs & Hperm & Hi) & Hex)].
  - intros [arr i] (s & rest & -> & Hs & Hperm & Hi). split; [lia|].
    eexists. split; [done|]. intros Hle%Z.leb_le.
    assert (vec_size s + vec_size rest = vec_size mid) as Hlen.
    { apply Permutation_length in Hperm. vsize. }
    destruct Hi as [[-> ->]|[Hne ->]]; [vsize|].
    destruct rest as [|x rest']; [vsize|].
    rewrite (vec_get_middle2 pre s (rest' ++ post) x) by lia. simpl.
    replace (left + vec_size s - left) with (vec_size s) by lia.
    destruct (shift_loop pre s (rest' ++ post) x left
                (S (Z.to_nat (vec_size s))))
      as (s1 & s2 & d & -> & -> & Hs2 & Hlast); [done|vsize|]. simpl.
    rewrite (vec_set_middle2 pre s1 (s2 ++ rest' ++ post) x d) by lia. simpl.
    eexists. split; [done|]. split; [|lia].
    exists (s1 ++ x :: s2), rest'. split; [by rewrite <- !app_assoc|].
    split; [by apply insert_keeps_sorted|]. split; [|right; split].
    + rewrite <- Hperm, <- !app_assoc. simpl.
      by rewrite (Permutation_middle s2 rest' x).
    + by destruct s1.
    + vsize.
  - destruct mid as [|m0 mid'].
    + exists [], []. repeat split; try done; [constructor|by left].
    + exists [m0], mid'. repeat split; try done.
      * repeat constructor.
      * right. split; [done|vsize].
  - lia.
  - simpl. injection Hex as Hex%Z.leb_gt.
    assert (vec_size s + vec_size rest = vec_size mid) as Hlen.
    { apply Permutation_length in Hperm. vsize. }
    assert (rest = []) as ->.
    { destruct Hi as [[-> ->]|[Hne ->]]; destruct rest; try done; vsize. }
    exists s. rewrite app_nil_r in Hperm. done.
Qed.

End insertion_sort_proofs.

(** The two functions are the same text. *)
Lemma insertionSortDeque_vector (arr : list Z) (left right : Z) :
  insertionSortDeque arr left right = insertionSortVector arr left right.
Proof. reflexivity. Qed.

(** While its indices stay below [INT_MAX], [insertionSortVector] is the
    insertion sort of the range: no [int] overflows. *)
Lemma insertionSortVector_range (arr : list Z) (left right : Z) :
  INT_MIN < left < INT_MAX -> right < INT_MAX ->
  insertionSortVector arr left right = insertion_sort_range Z.gtb arr left right.
Proof.
  intros Hl Hr. unfold insertionSortVector, insertion_sort_range.
  rewrite (in_int_ok (left + 1)) by lia. simpl.
  match goal with |- ?L = ?R =>
    match L with context [while ?f ?c ?b1 ?s] =>
      match R with context [while f c ?b2 s] =>
        rewrite (while_agree c b2 b1
                   (fun st : list Z * Z => let '(_, i) := st in left + 1 <= i))
      end
    end
  end; [done| | |simpl; lia].
  - intros [a i] Hi Hc. injection Hc as Hc%Z.leb_le.
    destruct (vec_get a i) as [key|]; [simpl|done].
    rewrite (in_int_ok (i - 1)), (in_int_ok (i + 1)) by lia. simpl.
    match goal with |- ?L = ?R =>
      match L with context [while ?f ?c ?b1 ?s] =>
        match R with context [while f c ?b2 s] =>
          rewrite (while_agree c b2 b1
                     (fun st : list Z * Z => let '(_, j) := st in
                        left - 1 <= j <= i - 1))
        end
      end
    end; [| | |simpl; lia].
    + destruct (while _ _ _ _) as [[a2 j]|] eqn:Hin; [simpl|done].
      eapply (while_partial _ _
        (fun st : list Z * Z => let '(_, j) := st in left - 1 <= j <= i - 1))
        in Hin; [| |simpl; lia].
      * destruct Hin as [Hj _]. rewrite (in_int_ok (j + 1)) by lia. done.
      * intros [a1 j1] [a1' j1'] Hj Hc1 Hb.
        destruct (Z.leb_spec left j1); [|done].
        destruct (vec_get a1 j1); [simpl in Hb|done].
        destruct (vec_set a1 (j1 + 1) _); [simpl in Hb|done].
        simplify_eq. lia.
    + intros [a1 j1] Hj Hc1.
      destruct (Z.leb_spec left j1); [|done].
      destruct (vec_get a1 j1); [simpl|done].
      rewrite (in_int_ok (j1 + 1)), (in_int_ok (j1 - 1)) by lia. done.
    + intros [a1 j1] [a1' j1'] Hj Hc1 Hb.
      destruct (Z.leb_spec left j1); [|done].
      destruct (vec_get a1 j1); [simpl in Hb|done].
      destruct (vec_set a1 (j1 + 1) _); [simpl in Hb|done].
      simplify_eq. lia.
  - intros [a i] [a' i'] Hi Hc Hb.
    destruct (vec_get a i) as [key|]; [simpl in Hb|done].
    destruct (while _ _ _ _) as [[a2 j]|]; [simpl in Hb|done].
    destruct (vec_set a2 (j + 1) key); [simpl in Hb|done].
    simplify_eq. lia.
Qed.

(** ** Binary search and insertion *)

(** On an ascending chain [lower_bound] finds the end of the elements below
    [val]. *)
Lemma lower_bound_spec (v : list Z) (val : Z) :
  StronglySorted Z.le v ->
  exists l1 l2, v = l1 ++ l2 /\ lower_bound v val = Some (vec_size l1) /\
    Forall (fun y => y < val) l1 /\ Forall (fun y => val <= y) l2.
Proof.
  intros Hv. unfold lower_bound.
  while_inv
    (fun st : Z * Z => let '(first, len) := st in
       0 <= first /\ 0 <= len /\ first + len <= vec_size v /\
       Forall (fun y => y < val) (take (Z.to_nat first) v) /\
       Forall (fun y => val <= y) (drop (Z.to_nat (first + len)) v))
    (fun st : Z * Z => let '(_, len) := st in len);
    [| | |destruct Hw as ([first len] & -> & (Hf & Hl & Hfl & Hlo & Hhi) & Hex)].
  - intros [first len] (Hf & Hl & Hfl & Hlo & Hhi). split; [done|].
    eexists. split; [done|]. intros Hlen%Z.ltb_lt.
    rewrite Z.shiftr_div_pow2 by lia. change (2 ^ 1) with 2.
    assert (0 <= len / 2 < len) as Hhalf.
    { split; [apply Z.div_pos; lia|apply Z.div_lt; lia]. }
    destruct (vec_get_in_range v (first + len / 2)) as (x & -> & Hx); [lia|].
    simpl.
    pose proof (take_drop_middle _ _ _ Hx) as Hsplit.
    rewrite <- Hsplit in Hv. apply StronglySorted_app in Hv as (Hcross & _ & Hx').
    apply StronglySorted_cons in Hx' as [Hx' _].
    destruct (Z.ltb_spec x val) as [Hlt|Hge].
    + eexists. split; [done|]. split; [|lia].
      split; [lia|]. split; [lia|]. split; [lia|]. split.
      * replace (Z.to_nat (first + len / 2 + 1))
          with (S (Z.to_nat (first + len / 2))) by lia.
        rewrite (take_S_r _ _ _ Hx). apply Forall_app. split.
        -- apply Forall_forall. intros y Hy.
           specialize (Hcross y x Hy (list_elem_of_here _ _)). lia.
        -- by apply Forall_singleton.
      * replace (first + len / 2 + 1 + (len - len / 2 - 1)) with (first + len) by lia.
        done.
    + eexists. split; [done|]. split; [|lia].
      split; [lia|]. split; [lia|]. split; [lia|]. split; [done|].
      rewrite (drop_S _ _ _ Hx). constructor; [done|].
      eapply Forall_impl; [done|]. intros y Hy. simpl in Hy. lia.
  - pose proof (vec_size_nonneg v). repeat split; try lia; [by constructor|].
    rewrite drop_ge; [constructor|]. unfold vec_size. lia.
  - unfold vec_size. lia.
  - simpl. injection Hex as Hex%Z.ltb_ge. assert (len = 0) as -> by lia.
    rewrite Z.add_0_r in Hhi.
    exists (take (Z.to_nat first) v), (drop (Z.to_nat first) v).
    split; [by rewrite take_drop|]. split; [|done].
    f_equal. unfold vec_size in *. rewrite length_take. lia.
Qed.

(** Inserting at the position of [lower_bound] keeps an ascending chain
    ascending and adds the element. *)
Lemma binary_insert_spec (mainChain : list Z) (x : Z) :
  StronglySorted Z.le mainChain ->
  exists out, binary_insert mainChain x = Some out /\
    StronglySorted Z.le out /\ out ≡ₚ x :: mainChain.
Proof.
  intros Hs. unfold binary_insert.
  destruct (lower_bound_spec mainChain x Hs) as (l1 & l2 & -> & -> & Hl1 & Hl2).
  simpl. rewrite vec_insert_split by done.
  eexists. split; [done|]. split; [|by rewrite Permutation_middle].
  apply StronglySorted_app in Hs as (Hcross & Hs1 & Hs2).
  apply StronglySorted_app. split; [|split; [done|by constructor]].
  intros x1 x2 Hx1 Hx2. rewrite Forall_forall in Hl1, Hl2.
  specialize (Hl1 x1 Hx1).
  apply elem_of_cons in Hx2 as [->|Hx2]; [lia|].
  specialize (Hl2 x2 Hx2). lia.
Qed.

(** ** The phases of the driver *)

Lemma perm_snoc2 {A} (l1 l2 : list A) (x y : A) :
  (l1 ++ [x]) ++ l2 ++ [y] ≡ₚ (l1 ++ l2) ++ [x; y].
Proof.
  rewrite <- !app_assoc. apply Permutation_app_head. simpl.
  apply Permutation_middle.
Qed.

(** The pairing loop pairs the first [2 * (n / 2)] elements, the smaller
    element of each pair first. *)
Lemma make_pairs_spec (arr : list Z) (n : Z) :
  n = vec_size arr ->
  exists pairs, make_pairs arr n = Some (pairs, 2 * (n / 2)) /\
    Forall (fun p : Pair => p.1 <= p.2) pairs /\
    pairs.*1 ++ pairs.*2 ≡ₚ take (Z.to_nat (2 * (n / 2))) arr /\
    vec_size pairs = n / 2.
Proof.
  intros Hn. unfold make_pairs.
  while_inv
    (fun st : list Pair * Z => let '(pairs, i) := st in
       0 <= i <= n /\ i = 2 * vec_size pairs /\
       Forall (fun p : Pair => p.1 <= p.2) pairs /\
       pairs.*1 ++ pairs.*2 ≡ₚ take (Z.to_nat i) arr)
    (fun st : list Pair * Z => let '(_, i) := st in n - i);
    [| | |destruct Hw as ([pairs i] & -> & (Hi & Hsz & Hle & Hperm) & Hex)].
  - intros [pairs i] (Hi & Hsz & Hle & Hperm). split; [lia|].
    eexists. split; [done|]. intros Hlt%Z.ltb_lt.
    destruct (vec_get_in_range arr i) as (a & -> & Ha); [lia|].
    destruct (vec_get_in_range arr (i + 1)) as (b & -> & Hb); [lia|].
    simpl. eexists. split; [done|]. split; [|lia].
    unfold push_back. split; [lia|]. split; [vsize|].
    replace (Z.to_nat (i + 1)) with (S (Z.to_nat i)) in Hb by lia.
    replace (Z.to_nat (i + 2)) with (S (S (Z.to_nat i))) by lia.
    rewrite (take_S_r _ _ _ Hb), (take_S_r _ _ _ Ha), <- app_assoc. simpl.
    rewrite !fmap_app, <- Hperm. simpl.
    destruct (Z.gtb_spec a b); simpl.
    + split; [apply Forall_app; split; [done|]; apply Forall_singleton; simpl; lia|].
      rewrite perm_snoc2. apply Permutation_app_head. apply perm_swap.
    + split; [apply Forall_app; split; [done|]; by apply Forall_singleton|].
      apply perm_snoc2.
  - pose proof (vec_size_nonneg arr). repeat split; try done; lia.
  - lia.
  - injection Hex as Hex%Z.ltb_ge.
    pose proof (Z.div_mod n 2). pose proof (Z.mod_pos_bound n 2).
    assert (i = 2 * (n / 2)) as -> by lia.
    exists pairs. repeat split; try done. lia.
Qed.

(** The element left unpaired, when the length is odd. *)
Lemma take_straggler_spec (arr : list Z) (n : Z) :
  n = vec_size arr ->
  (Z.odd n = false /\ take_straggler arr n (2 * (n / 2)) = Some (-1) /\
   take (Z.to_nat (2 * (n / 2))) arr = arr) \/
  (Z.odd n = true /\ exists x, take_straggler arr n (2 * (n / 2)) = Some x /\
   take (Z.to_nat (2 * (n / 2))) arr ++ [x] = arr /\ last arr = Some x).
Proof.
  intros Hn. unfold take_straggler. pose proof (vec_size_nonneg arr).
  pose proof (Zdiv2_odd_eqn n) as Hdiv. rewrite Z.div2_div in Hdiv.
  destruct (Z.odd n) eqn:Hodd; [right|left]; split; try done.
  - destruct (Z.ltb_spec (2 * (n / 2)) n); [|lia].
    destruct (vec_get_in_range arr (2 * (n / 2))) as (x & -> & Hx); [lia|].
    exists x. split; [done|].
    assert (take (Z.to_nat (2 * (n / 2))) arr ++ [x] = arr) as Harr.
    { rewrite <- (take_S_r _ _ _ Hx). apply take_ge. unfold vec_size in *. lia. }
    split; [done|]. rewrite <- Harr. apply last_snoc.
  - destruct (Z.ltb_spec (2 * (n / 2)) n); [lia|]. split; [done|].
    apply take_ge. unfold vec_size in *. lia.
Qed.

(** The pairs end in ascending order of their larger element. *)
Lemma sort_pairs_spec (pairs : list Pair) :
  exists out, sort_pairs pairs = Some out /\
    StronglySorted (key_le snd) out /\ out ≡ₚ pairs.
Proof.
  unfold sort_pairs.
  destruct (insertion_sort_range_spec (fun p key : Pair => p.2 >? key.2) snd
              (fun _ _ => eq_refl) [] pairs [] 0 (vec_size pairs - 1))
    as (out & Hout & Hs & Hp); [done|lia|].
  rewrite !app_nil_r in Hout. simpl in Hout. by exists out.
Qed.

Lemma split_pairs_spec (pairs : list Pair) :
  split_pairs pairs = Some (pairs.*2, pairs.*1).
Proof.
  unfold split_pairs.
  while_inv
    (fun st : list Z * list Z * Z => let '(mainChain, pend, j) := st in
       0 <= j <= vec_size pairs /\
       mainChain = (take (Z.to_nat j) pairs).*2 /\
       pend = (take (Z.to_nat j) pairs).*1)
    (fun st : list Z * list Z * Z => let '(_, _, j) := st in vec_size pairs - j);
    [| | |destruct Hw as ([[mainChain pend] j] & -> & (Hj & -> & ->) & Hex)].
  - intros [[mainChain pend] j] (Hj & -> & ->). split; [lia|].
    eexists. split; [done|]. intros Hlt%Z.ltb_lt.
    destruct (vec_get_in_range pairs j) as (p & -> & Hp); [lia|]. simpl.
    eexists. split; [done|]. split; [|lia]. split; [lia|].
    replace (Z.to_nat (j + 1)) with (S (Z.to_nat j)) by lia.
    rewrite (take_S_r _ _ _ Hp), !fmap_app. done.
  - pose proof (vec_size_nonneg pairs). done.
  - unfold vec_size. lia.
  - simpl. injection Hex as Hex%Z.ltb_ge.
    rewrite take_ge by (unfold vec_size in *; lia). done.
Qed.

Lemma sorted_pairs_chain (pairs : list Pair) :
  StronglySorted (key_le snd) pairs -> StronglySorted Z.le pairs.*2.
Proof.
  induction 1 as [|p pairs Hs IH Hall]; [constructor|].
  simpl. constructor; [done|]. apply Forall_fmap. done.
Qed.

Lemma pend_at_tail (p0 : Z) (pend' : list Z) :
  (fun o => pend_at (p0 :: pend') (o + 1)) <$> seqZ 0 (vec_size pend') = pend'.
Proof.
  apply list_eq. intros i. rewrite list_lookup_fmap.
  destruct (decide (i < length pend')%nat) as [Hi|Hi].
  - rewrite lookup_seqZ_lt by (unfold vec_size; lia). simpl.
    destruct (lookup_lt_is_Some_2 pend' i Hi) as [y Hy]. rewrite Hy.
    unfold pend_at. replace (Z.to_nat (0 + Z.of_nat i + 1)) with (S i) by lia.
    simpl. by rewrite Hy.
  - rewrite lookup_seqZ_ge by (unfold vec_size; lia). simpl.
    symmetry. apply lookup_ge_None_2. lia.
Qed.

(** Sorting, pairing and splitting: the chain starts ascending, with the
    smaller element of the first pair in front, and nothing is lost. *)
Lemma pairing_front (arr : list Z) (n : Z) :
  n = vec_size arr -> 2 <= n ->
  exists pairs0 st pairs p0 pend' mc,
    make_pairs arr n = Some (pairs0, 2 * (n / 2)) /\
    take_straggler arr n (2 * (n / 2)) = Some st /\
    sort_pairs pairs0 = Some pairs /\
    split_pairs pairs = Some (mc, p0 :: pend') /\
    StronglySorted Z.le (p0 :: mc) /\
    vec_size pend' = n / 2 - 1 /\
    (Z.odd n = false /\ st = -1 /\ (p0 :: mc) ++ pend' ≡ₚ arr \/
     Z.odd n = true /\ last arr = Some st /\ st :: (p0 :: mc) ++ pend' ≡ₚ arr).
Proof.
  intros Hn Hn2.
  destruct (make_pairs_spec arr n Hn) as (pairs0 & Hmk & Hle0 & Hperm0 & Hsz0).
  destruct (sort_pairs_spec pairs0) as (pairs & Hsort & Hs & Hp).
  assert (exists st, take_straggler arr n (2 * (n / 2)) = Some st /\
    (Z.odd n = false /\ st = -1 /\ pairs0.*1 ++ pairs0.*2 ≡ₚ arr \/
     Z.odd n = true /\ last arr = Some st /\
     st :: pairs0.*1 ++ pairs0.*2 ≡ₚ arr)) as (st & Hst & Hcases).
  { destruct (take_straggler_spec arr n Hn) as [(Hodd & Hst & Htake)|(Hodd & x & Hst & Htake & Hlast)].
    - exists (-1). split; [done|]. left. by rewrite Hperm0, Htake.
    - exists x. split; [done|]. right. split; [done|]. split; [done|].
      rewrite Hperm0. rewrite <- Htake at 2.
      by rewrite (Permutation_app_comm _ [x]). }
  assert (vec_size pairs = n / 2) as Hsz.
  { rewrite <- Hsz0. unfold vec_size. by rewrite (Permutation_length Hp). }
  assert (1 <= n / 2) by (apply Z.div_le_lower_bound; lia).
  destruct pairs as [|[lo hi] rest]; [rewrite vec_size_nil in Hsz; lia|].
  exists pairs0, st, ((lo, hi) :: rest), lo, rest.*1, (hi :: rest.*2).
  split; [done|]. split; [done|]. split; [done|].
  split; [by rewrite split_pairs_spec|].
  assert (Forall (fun p : Pair => p.1 <= p.2) ((lo, hi) :: rest)) as Hle
    by (by rewrite Hp).
  apply Forall_cons in Hle as [Hlohi _]. simpl in Hlohi.
  pose proof (sorted_pairs_chain _ Hs) as Hchain. simpl in Hchain.
  split.
  { constructor; [done|]. apply StronglySorted_cons in Hchain as [Hall _].
    constructor; [done|]. eapply Forall_impl; [done|]. simpl. lia. }
  split; [rewrite vec_size_cons in Hsz; unfold vec_size in *;
          rewrite length_fmap; lia|].
  assert ((lo :: hi :: rest.*2) ++ rest.*1 ≡ₚ pairs0.*1 ++ pairs0.*2) as Hall.
  { rewrite <- Hp. simpl. apply perm_skip.
    etrans; [|apply Permutation_middle]. apply perm_skip, Permutation_app_comm. }
  destruct Hcases as [(? & ? & Hc)|(? & ? & Hc)]; [left|right];
    (split; [done|]); (split; [done|]); by rewrite Hall.
Qed.

(** The planned insertion adds [pend[o + 1]] for each [o] of the order. *)
Lemma insert_pend_planned_spec (mainChain pend order : list Z) :
  StronglySorted Z.le mainChain ->
  Forall (fun o => 0 <= o + 1 < vec_size pend) order ->
  exists out, insert_pend_planned mainChain pend order = Some out /\
    StronglySorted Z.le out /\
    out ≡ₚ mainChain ++ ((fun o => pend_at pend (o + 1)) <$> order).
Proof.
  intros Hs Horder. unfold insert_pend_planned.
  while_inv
    (fun st : list Z * Z => let '(mc, j) := st in
       0 <= j <= vec_size order /\ StronglySorted Z.le mc /\
       mc ≡ₚ mainChain ++
             ((fun o => pend_at pend (o + 1)) <$> take (Z.to_nat j) order))
    (fun st : list Z * Z => let '(_, j) := st in vec_size order - j);
    [| | |destruct Hw as ([mc j] & -> & (Hj & Hmc & Hperm) & Hex)].
  - intros [mc j] (Hj & Hmc & Hperm). split; [lia|].
    eexists. split; [done|]. intros Hlt%Z.ltb_lt.
    destruct (vec_get_in_range order j) as (o & -> & Ho); [lia|]. simpl.
    pose proof (Forall_lookup_1 _ _ _ _ Horder Ho) as Hrange. simpl in Hrange.
    destruct (vec_get_in_range pend (o + 1)) as (x & -> & Hx); [lia|]. simpl.
    destruct (binary_insert_spec mc x Hmc) as (mc' & -> & Hmc' & Hperm').
    simpl. eexists. split; [done|]. split; [|lia].
    split; [lia|]. split; [done|].
    replace (Z.to_nat (j + 1)) with (S (Z.to_nat j)) by lia.
    rewrite (take_S_r _ _ _ Ho), fmap_app, app_assoc, <- Hperm. simpl.
    rewrite Hperm'. unfold pend_at. rewrite Hx. simpl.
    by rewrite (Permutation_app_comm mc [x]).
  - pose proof (vec_size_nonneg order). split; [lia|]. split; [done|].
    simpl. by rewrite app_nil_r.
  - unfold vec_size. lia.
  - simpl. injection Hex as Hex%Z.ltb_ge.
    rewrite take_ge in Hperm by (unfold vec_size in *; lia). eauto.
Qed.

(** The sequential insertion adds [pend[1]], [pend[2]], ... in turn. *)
Lemma insert_pend_sequential_spec (mainChain : list Z) (p0 : Z) (pend' : list Z) :
  StronglySorted Z.le mainChain ->
  exists out, insert_pend_sequential mainChain (p0 :: pend') = Some out /\
    StronglySorted Z.le out /\ out ≡ₚ mainChain ++ pend'.
Proof.
  intros Hs. unfold insert_pend_sequential.
  while_inv
    (fun st : list Z * Z => let '(mc, j) := st in
       1 <= j <= vec_size (p0 :: pend') /\ StronglySorted Z.le mc /\
       mc ≡ₚ mainChain ++ take (Z.to_nat (j - 1)) pend')
    (fun st : list Z * Z => let '(_, j) := st in vec_size (p0 :: pend') - j);
    [| | |destruct Hw as ([mc j] & -> & (Hj & Hmc & Hperm) & Hex)].
  - intros [mc j] (Hj & Hmc & Hperm). split; [lia|].
    eexists. split; [done|]. intros Hlt%Z.ltb_lt.
    destruct (vec_get_in_range (p0 :: pend') j) as (x & -> & Hx); [lia|]. simpl.
    replace (Z.to_nat j) with (S (Z.to_nat (j - 1))) in Hx by lia. simpl in Hx.
    destruct (binary_insert_spec mc x Hmc) as (mc' & -> & Hmc' & Hperm').
    simpl. eexists. split; [done|]. split; [|lia].
    split; [lia|]. split; [done|].
    replace (Z.to_nat (j + 1 - 1)) with (S (Z.to_nat (j - 1))) by lia.
    rewrite (take_S_r _ _ _ Hx), app_assoc, <- Hperm, Hperm'.
    by rewrite (Permutation_app_comm mc [x]).
  - rewrite vec_size_cons. pose proof (vec_size_nonneg pend').
    split; [lia|]. split; [done|]. simpl. by rewrite app_nil_r.
  - unfold vec_size. simpl. lia.
  - simpl. injection Hex as Hex%Z.ltb_ge.
    rewrite take_ge in Hperm by (rewrite vec_size_cons in *; unfold vec_size in *; lia).
    eauto.
Qed.

(** The order the ex02 driver asks the planner for. *)
Lemma planned_order_spec (p0 : Z) (pend' : list Z) :
  vec_size pend' <= J65 ->
  exists order,
    (if 1 <? vec_size (p0 :: pend')
     then generateJacobsthalInsertionOrder granting
            (vec_size (p0 :: pend') - 1) []
     else Some []) = Some order /\
    order ≡ₚ seqZ 0 (vec_size pend').
Proof.
  intros Hsz. rewrite vec_size_cons. pose proof (vec_size_nonneg pend').
  destruct (Z.ltb_spec 1 (1 + vec_size pend')).
  - replace (1 + vec_size pend' - 1) with (vec_size pend') by lia.
    destruct (planner_total (vec_size pend') []) as (order & -> & Hnd & Hiff); [lia|].
    exists order. split; [done|].
    apply NoDup_Permutation; [done|apply NoDup_seqZ|].
    intros x. rewrite Hiff, elem_of_seqZ. lia.
  - exists []. split; [done|]. by replace (vec_size pend') with 0 by lia.
Qed.

Lemma insert_straggler_spec (chain : list Z) (st : Z) :
  StronglySorted Z.le chain ->
  exists out, insert_straggler chain st = Some out /\
    StronglySorted Z.le out /\
    (st = -1 -> out = chain) /\ (st <> -1 -> out ≡ₚ st :: chain).
Proof.
  intros Hs. unfold insert_straggler.
  destruct (Z.eqb_spec st (-1)) as [->|Hne]; simpl.
  - exists chain. done.
  - destruct (binary_insert_spec chain st Hs) as (out & -> & Hout & Hperm).
    exists out. done.
Qed.

(** The last phase, after any insertion of the pend elements that keeps the
    chain ascending and loses nothing. *)
Lemma driver_finish (arr : list Z) (n st : Z) (body chain : list Z) :
  n = vec_size arr -> 10 < n ->
  (Z.odd n = false /\ st = -1 /\ body ≡ₚ arr \/
   Z.odd n = true /\ last arr = Some st /\ st :: body ≡ₚ arr) ->
  StronglySorted Z.le chain -> chain ≡ₚ body ->
  exists out, insert_straggler chain st = Some out /\ sorted_output arr out.
Proof.
  intros -> Hn Hcases Hs Hperm.
  destruct (insert_straggler_spec chain st Hs) as (out & -> & Hout & Heq & Hins).
  exists out. split; [done|]. split; [done|]. unfold straggler_dropped.
  destruct (Z.ltb_spec 10 (vec_size arr)); [|lia]. simpl.
  destruct Hcases as [(-> & -> & Hb)|(-> & Hlast & Hb)]; simpl.
  - split; [|done]. intros _. by rewrite Heq, Hperm.
  - rewrite Hlast. destruct (decide (st = -1)) as [->|Hne].
    + rewrite bool_decide_eq_true_2 by done. split; [done|]. intros _.
      by rewrite Heq, Hperm.
    + rewrite bool_decide_eq_false_2 by congruence. split; [|done]. intros _.
      by rewrite Hins, Hperm.
Qed.

(** ** The sorters *)

Lemma to_int_small (z : Z) : 0 <= z <= INT_MAX -> to_int z = z.
Proof.
  unfold to_int, INT_MAX. intros Hz.
  rewrite Z.mod_small; lia.
Qed.

(** The planned insertion of the whole pend list. *)
Lemma insert_planned_all (mainChain : list Z) (p0 : Z) (pend' : list Z) :
  StronglySorted Z.le mainChain -> vec_size pend' <= J65 ->
  exists order out,
    (if 1 <? vec_size (p0 :: pend')
     then generateJacobsthalInsertionOrder granting
            (vec_size (p0 :: pend') - 1) []
     else Some []) = Some order /\
    insert_pend_planned mainChain (p0 :: pend') order = Some out /\
    StronglySorted Z.le out /\ out ≡ₚ mainChain ++ pend'.
Proof.
  intros Hs Hsz.
  destruct (planned_order_spec p0 pend' Hsz) as (order & Ho & Horder).
  destruct (insert_pend_planned_spec mainChain (p0 :: pend') order Hs)
    as (out & Hins & Hout & Hperm).
  { rewrite Horder. apply Forall_forall. intros o Ho'%elem_of_seqZ.
    rewrite vec_size_cons. lia. }
  exists order, out. split; [done|]. split; [done|]. split; [done|].
  by rewrite Hperm, Horder, pend_at_tail.
Qed.

Lemma front_insert (mainChain : list Z) (p0 : Z) :
  vec_insert mainChain 0 p0 = Some (p0 :: mainChain).
Proof.
  rewrite vec_insert_in_range by (pose proof (vec_size_nonneg mainChain); lia).
  done.
Qed.

Lemma half_fits (n : Z) : 10 < n -> n <= INT_MAX -> n / 2 - 1 <= J65.
Proof.
  intros. assert (n / 2 <= n) by (apply Z.div_le_upper_bound; lia).
  unfold INT_MAX, J65 in *. lia.
Qed.

Lemma pairing_path_vector_spec (arr : list Z) (n : Z) :
  n = vec_size arr -> 10 < n -> n <= INT_MAX ->
  exists out, pairing_path_vector arr n = Some out /\ sorted_output arr out.
Proof.
  intros Hn Hn10 Hmax.
  destruct (pairing_front arr n Hn) as
    (pairs0 & st & pairs & p0 & pend' & mc & Hmk & Hst & Hsort & Hsplit &
     Hs & Hsz & Hcases); [lia|].
  unfold pairing_path_vector. rewrite Hmk. simpl. rewrite Hst. simpl.
  rewrite Hsort. simpl. rewrite Hsplit. simpl.
  rewrite front_insert. simpl.
  destruct (insert_planned_all (p0 :: mc) p0 pend' Hs)
    as (order & chain & -> & Hchain & Hc & Hperm);
    [rewrite Hsz; by apply half_fits|].
  simpl. rewrite Hchain. simpl.
  by apply (driver_finish arr n st ((p0 :: mc) ++ pend')).
Qed.

Lemma pairing_path_deque_spec (arr : list Z) (n : Z) :
  n = vec_size arr -> 10 < n -> n <= INT_MAX ->
  exists out, pairing_path_deque arr n = Some out /\ sorted_output arr out.
Proof.
  intros Hn Hn10 Hmax.
  destruct (pairing_front arr n Hn) as
    (pairs0 & st & pairs & p0 & pend' & mc & Hmk & Hst & Hsort & Hsplit &
     Hs & Hsz & Hcases); [lia|].
  unfold pairing_path_deque. rewrite Hmk. simpl. rewrite Hst. simpl.
  rewrite Hsort. simpl. rewrite Hsplit. simpl.
  unfold push_front.
  destruct (insert_planned_all (p0 :: mc) p0 pend' Hs)
    as (order & chain & -> & Hchain & Hc & Hperm);
    [rewrite Hsz; by apply half_fits|].
  simpl. rewrite Hchain. simpl.
  by apply (driver_finish arr n st ((p0 :: mc) ++ pend')).
Qed.

Lemma basic_pairing_path_vector_spec (arr : list Z) (n : Z) :
  n = vec_size arr -> 10 < n ->
  exists out, Basic.pairing_path_vector arr n = Some out /\ sorted_output arr out.
Proof.
  intros Hn Hn10.
  destruct (pairing_front arr n Hn) as
    (pairs0 & st & pairs & p0 & pend' & mc & Hmk & Hst & Hsort & Hsplit &
     Hs & Hsz & Hcases); [lia|].
  unfold Basic.pairing_path_vector. rewrite Hmk. simpl. rewrite Hst. simpl.
  rewrite Hsort. simpl. rewrite Hsplit. simpl.
  rewrite front_insert. simpl.
  destruct (insert_pend_sequential_spec (p0 :: mc) p0 pend' Hs)
    as (chain & -> & Hc & Hperm). simpl.
  by apply (driver_finish arr n st ((p0 :: mc) ++ pend')).
Qed.

Lemma basic_pairing_path_deque_spec (arr : list Z) (n : Z) :
  n = vec_size arr -> 10 < n ->
  exists out, Basic.pairing_path_deque arr n = Some out /\ sorted_output arr out.
Proof.
  intros Hn Hn10.
  destruct (pairing_front arr n Hn) as
    (pairs0 & st & pairs & p0 & pend' & mc & Hmk & Hst & Hsort & Hsplit &
     Hs & Hsz & Hcases); [lia|].
  unfold Basic.pairing_path_deque. rewrite Hmk. simpl. rewrite Hst. simpl.
  rewrite Hsort. simpl. rewrite Hsplit. simpl.
  unfold push_front.
  destruct (insert_pend_sequential_spec (p0 :: mc) p0 pend' Hs)
    as (chain & -> & Hc & Hperm). simpl.
  by apply (driver_finish arr n st ((p0 :: mc) ++ pend')).
Qed.

(** The base case: the insertion sort of the whole container. *)
Lemma insertion_sort_whole (arr : list Z) :
  vec_size arr <= INT_MAX ->
  exists out, insertionSortVector arr 0 (vec_size arr - 1) = Some out /\
    StronglySorted Z.le out /\ out ≡ₚ arr.
Proof.
  intros Hfit.
  rewrite insertionSortVector_range by (unfold INT_MIN, INT_MAX in *; lia).
  destruct (insertion_sort_range_spec Z.gtb id (fun _ _ => eq_refl)
              [] arr [] 0 (vec_size arr - 1))
    as (out & Hout & Hs & Hp); [done|lia|].
  rewrite !app_nil_r in Hout. simpl in Hout. by exists out.
Qed.

Lemma base_case_output (arr out : list Z) :
  vec_size arr <= 10 -> StronglySorted Z.le out -> out ≡ₚ arr ->
  sorted_output arr out.
Proof.
  intros Hn Hs Hp. split; [done|]. unfold straggler_dropped.
  destruct (Z.ltb_spec 10 (vec_size arr)); [lia|]. done.
Qed.

(** What each of the four sorters returns. *)
Lemma mergeInsertSortVector_spec (arr : list Z) :
  size_fits_int arr ->
  exists out, mergeInsertSortVector arr = Some out /\ sorted_output arr out.
Proof.
  intros Hfit. unfold mergeInsertSortVector, size_fits_int in *.
  pose proof (vec_size_nonneg arr).
  rewrite to_int_small by lia.
  destruct (Z.leb_spec (vec_size arr) 10).
  - destruct (insertion_sort_whole arr Hfit) as (out & Hout & Hs & Hp).
    exists out. split; [done|]. by apply base_case_output.
  - by apply pairing_path_vector_spec.
Qed.

Lemma mergeInsertSortDeque_spec (arr : list Z) :
  size_fits_int arr ->
  exists out, mergeInsertSortDeque arr = Some out /\ sorted_output arr out.
Proof.
  intros Hfit. unfold mergeInsertSortDeque, size_fits_int in *.
  pose proof (vec_size_nonneg arr).
  rewrite to_int_small by lia.
  destruct (Z.leb_spec (vec_size arr) 10).
  - destruct (insertion_sort_whole arr Hfit) as (out & Hout & Hs & Hp).
    exists out. split; [done|]. by apply base_case_output.
  - by apply pairing_path_deque_spec.
Qed.

Lemma basic_mergeInsertSortVector_spec (arr : list Z) :
  size_fits_int arr ->
  exists out, Basic.mergeInsertSortVector arr = Some out /\ sorted_output arr out.
Proof.
  intros Hfit. unfold Basic.mergeInsertSortVector, size_fits_int in *.
  pose proof (vec_size_nonneg arr).
  rewrite to_int_small by lia.
  destruct (Z.leb_spec (vec_size arr) 10).
  - destruct (insertion_sort_whole arr Hfit) as (out & Hout & Hs & Hp).
    exists out. split; [done|]. by apply base_case_output.
  - by apply basic_pairing_path_vector_spec.
Qed.

Lemma basic_mergeInsertSortDeque_spec (arr : list Z) :
  size_fits_int arr ->
  exists out, Basic.mergeInsertSortDeque arr = Some out /\ sorted_output arr out.
Proof.
  intros Hfit. unfold Basic.mergeInsertSortDeque, size_fits_int in *.
  pose proof (vec_size_nonneg arr).
  rewrite to_int_small by lia.
  destruct (Z.leb_spec (vec_size arr) 10).
  - destruct (insertion_sort_whole arr Hfit) as (out & Hout & Hs & Hp).
    exists out. split; [done|]. by apply base_case_output.
  - by apply basic_pairing_path_deque_spec.
Qed.

(** Two outputs for the same input are the same list. *)
Lemma sorted_output_unique (arr out1 out2 : list Z) :
  sorted_output arr out1 -> sorted_output arr out2 -> out1 = out2.
Proof.
  intros (Hs1 & Hk1 & Hd1) (Hs2 & Hk2 & Hd2).
  apply (StronglySorted_unique Z.le); [done..|].
  destruct (straggler_dropped arr).
  - apply (Permutation_cons_inv (a := -1)). by rewrite Hd1, Hd2.
  - by rewrite Hk1, Hk2.
Qed.

Lemma sorted_adjacent (l : list Z) (i x y : Z) :
  StronglySorted Z.le l ->
  vec_get l i = Some x -> vec_get l (i + 1) = Some y -> x <= y.
Proof.
  intros Hs [Hi Hx]%vec_get_lookup [_ Hy]%vec_get_lookup.
  replace (Z.to_nat (i + 1)) with (S (Z.to_nat i)) in Hy by lia.
  rewrite <- (take_drop_middle _ _ _ Hx) in Hs.
  apply StronglySorted_app in Hs as (_ & _ & Hs).
  apply StronglySorted_cons in Hs as [Hall _].
  eapply Forall_lookup_1 in Hall; [done|].
  rewrite lookup_drop. by rewrite Nat.add_0_r.
Qed.

Lemma sorted_output_size (arr out : list Z) :
  sorted_output arr out ->
  vec_size out = vec_size arr - (if straggler_dropped arr then 1 else 0).
Proof.
  intros (_ & Hk & Hd). unfold vec_size.
  destruct (straggler_dropped arr).
  - rewrite <- (Permutation_length (Hd eq_refl)). simpl. lia.
  - rewrite (Permutation_length (Hk eq_refl)). lia.
Qed.

(** * The claims *)

(** ** C1 *)

(** C1 fails as stated: an 11-element list that ends in -1 loses that
    element. *)
Lemma sort_loses_minus_one :
  mergeInsertSortVector [11; 10; 9; 8; 7; 6; 5; 4; 3; 2; -1]
    = Some [2; 3; 4; 5; 6; 7; 8; 9; 10; 11] /\
  ~ [2; 3; 4; 5; 6; 7; 8; 9; 10; 11] ≡ₚ [11; 10; 9; 8; 7; 6; 5; 4; 3; 2; -1].
Proof.
  split; [by vm_compute|]. intros Hp%Permutation_length. discriminate Hp.
Qed.

(** C1, as the code has it: for every list [L] whose size fits an [int],
    unless [L] has an odd length above 10 and ends in -1,
    [mergeInsertSortVector] returns a permutation of [L]. *)
Theorem sort_permutation (L : list Z) :
  size_fits_int L -> straggler_dropped L = false ->
  exists out, mergeInsertSortVector L = Some out /\ out ≡ₚ L.
Proof.
  intros Hfit Hkept.
  destruct (mergeInsertSortVector_spec L Hfit) as (out & Hout & _ & Hk & _).
  exists out. auto.
Qed.

Lemma sort_permutation_witness :
  exists out,
    mergeInsertSortVector
      [21; 3; 5; 9; 7; 4; 20; 19; 1; 18; 2; 17; 16; 6; 15; 8; 14; 10; 13; 11; 12]
      = Some out /\
    out ≡ₚ [21; 3; 5; 9; 7; 4; 20; 19; 1; 18; 2; 17; 16; 6; 15; 8; 14; 10; 13; 11; 12].
Proof. apply sort_permutation; by vm_compute. Defined.

(** ** C2 *)

(** C2: for every list whose size fits an [int], the output of
    [mergeInsertSortVector] is ascending: [out[i] <= out[i+1]] for every
    index [i] before the last. *)
Theorem sort_ascending (L : list Z) :
  size_fits_int L ->
  exists out, mergeInsertSortVector L = Some out /\
    forall i x y, vec_get out i = Some x -> vec_get out (i + 1) = Some y -> x <= y.
Proof.
  intros Hfit.
  destruct (mergeInsertSortVector_spec L Hfit) as (out & Hout & Hs & _).
  exists out. split; [done|]. intros i x y. by apply sorted_adjacent.
Qed.

Lemma sort_ascending_witness :
  exists out,
    mergeInsertSortVector [3; 5; 9; 7; 4; 12; 1; 30; 2; 8; 6; 11; -1] = Some out /\
    forall i x y, vec_get out i = Some x -> vec_get out (i + 1) = Some y -> x <= y.
Proof. apply sort_ascending. by vm_compute. Defined.

(** ** C3 *)

(** C3: for every list of odd length [n > 10] that ends in -1,
    [mergeInsertSortVector] returns a list of length [n - 1]: the sentinel of
    [straggler] hides the last element, and the output is the input less
    one -1. *)
Theorem straggler_minus_one_is_dropped (L : list Z) :
  size_fits_int L -> 10 < vec_size L -> Z.odd (vec_size L) = true ->
  last L = Some (-1) ->
  exists out, mergeInsertSortVector L = Some out /\
    vec_size out = vec_size L - 1 /\ -1 :: out ≡ₚ L.
Proof.
  intros Hfit Hn Hodd Hlast.
  destruct (mergeInsertSortVector_spec L Hfit) as (out & Hout & Hso).
  assert (straggler_dropped L = true) as Hd.
  { unfold straggler_dropped. rewrite Hodd, bool_decide_eq_true_2 by done.
    by destruct (Z.ltb_spec 10 (vec_size L)); [|lia]. }
  exists out. split; [done|]. split.
  - rewrite (sorted_output_size L out Hso), Hd. done.
  - destruct Hso as (_ & _ & Hdrop). auto.
Qed.

Lemma straggler_minus_one_is_dropped_witness :
  exists out,
    mergeInsertSortVector [4; 8; 15; 16; 23; 42; 7; 1; 9; 3; 12; 6; -1] = Some out /\
    vec_size out = vec_size [4; 8; 15; 16; 23; 42; 7; 1; 9; 3; 12; 6; -1] - 1 /\
    -1 :: out ≡ₚ [4; 8; 15; 16; 23; 42; 7; 1; 9; 3; 12; 6; -1].
Proof. apply straggler_minus_one_is_dropped; by vm_compute. Defined.

(** ** C5 *)

(** C5 fails as stated: at [n = 66] the accumulator of [jacobsthal] has
    wrapped modulo [2^64], and the value is not
    [jacobsthal 65 + 2 * jacobsthal 64]. *)
Lemma jacobsthal_66_wraps :
  jacobsthal 64 = Some 6148914691236517205 /\
  jacobsthal 65 = Some 12297829382473034411 /\
  jacobsthal 66 = Some 6148914691236517205 /\
  6148914691236517205 <> 12297829382473034411 + 2 * 6148914691236517205.
Proof. repeat split; by vm_compute. Qed.

(** C5, as the code has it: for every [n] from 0 to 65, [jacobsthal n] is the
    number J(n) of the reference sequence J(0) = 0, J(1) = 1,
    J(n) = J(n-1) + 2 J(n-2), and for [n >= 2] it is
    [jacobsthal (n-1) + 2 * jacobsthal (n-2)]; on 0..10 it gives
    0, 1, 1, 3, 5, 11, 21, 43, 85, 171, 341. *)
Theorem jacobsthal_reference (n : Z) :
  0 <= n <= 65 ->
  jacobsthal n = Some (J (Z.to_nat n)) /\
  (2 <= n -> exists a b, jacobsthal (n - 1) = Some a /\
     jacobsthal (n - 2) = Some b /\ jacobsthal n = Some (a + 2 * b)) /\
  jacobsthal <$> [0; 1; 2; 3; 4; 5; 6; 7; 8; 9; 10]
    = Some <$> [0; 1; 1; 3; 5; 11; 21; 43; 85; 171; 341].
Proof.
  intros Hn. split; [by apply jacobsthal_exact|]. split; [|by vm_compute].
  intros Hn2. exists (J (Z.to_nat (n - 1))), (J (Z.to_nat (n - 2))).
  rewrite !jacobsthal_exact by lia. repeat split. f_equal.
  replace (Z.to_nat n) with (S (S (Z.to_nat (n - 2)))) by lia.
  rewrite J_step. do 2 f_equal. lia.
Qed.

Lemma jacobsthal_reference_witness :
  jacobsthal 7 = Some (J (Z.to_nat 7)) /\
  (2 <= 7 -> exists a b, jacobsthal (7 - 1) = Some a /\
     jacobsthal (7 - 2) = Some b /\ jacobsthal 7 = Some (a + 2 * b)) /\
  jacobsthal <$> [0; 1; 2; 3; 4; 5; 6; 7; 8; 9; 10]
    = Some <$> [0; 1; 1; 3; 5; 11; 21; 43; 85; 171; 341].
Proof. apply (jacobsthal_reference 7). lia. Defined.

(** ** C6 *)

(** C6 fails as stated: an 11-element list that ends in -1 is not sorted
    correctly, its last element is missing from the output. *)
Lemma eleven_with_minus_one :
  vec_size [5; 3; 8; 1; 9; 2; 7; 4; 6; 10; -1] = 11 /\
  mergeInsertSortVector [5; 3; 8; 1; 9; 2; 7; 4; 6; 10; -1]
    = Some [1; 2; 3; 4; 5; 6; 7; 8; 9; 10] /\
  ~ [1; 2; 3; 4; 5; 6; 7; 8; 9; 10] ≡ₚ [5; 3; 8; 1; 9; 2; 7; 4; 6; 10; -1].
Proof.
  split; [done|]. split; [by vm_compute|].
  intros Hp%Permutation_length. discriminate Hp.
Qed.

(** C6, as the code has it: a list of at most 10 elements is sorted by the
    base-case insertion sort, whose result is returned, and a list of 0 or 1
    elements comes back unchanged; a list of 11 elements takes the pairing
    path.  Up to length 11 the output is ascending, and it is a permutation of
    the input when the length is at most 10 or the list does not end
    in -1. *)
Theorem base_case_boundary (L : list Z) :
  vec_size L <= 11 ->
  exists out, mergeInsertSortVector L = Some out /\
    StronglySorted Z.le out /\
    (vec_size L <= 10 \/ last L <> Some (-1) -> out ≡ₚ L) /\
    (vec_size L <= 10 ->
       mergeInsertSortVector L = insertionSortVector L 0 (vec_size L - 1)) /\
    (vec_size L <= 1 -> out = L) /\
    (vec_size L = 11 -> mergeInsertSortVector L = pairing_path_vector L 11).
Proof.
  intros Hn.
  assert (size_fits_int L) as Hfit by (unfold size_fits_int, INT_MAX; lia).
  destruct (mergeInsertSortVector_spec L Hfit) as (out & Hout & Hs & Hk & Hd).
  pose proof (vec_size_nonneg L).
  assert (to_int (vec_size L) = vec_size L) as Hint
    by (apply to_int_small; unfold INT_MAX; lia).
  assert (vec_size L <= 10 \/ last L <> Some (-1) -> out ≡ₚ L) as Hperm.
  { intros Hc. apply Hk. unfold straggler_dropped.
    destruct Hc as [Hc|Hc].
    - by destruct (Z.ltb_spec 10 (vec_size L)); [lia|].
    - rewrite bool_decide_eq_false_2 by done. apply andb_false_r. }
  exists out. split; [done|]. split; [done|]. split; [done|].
  unfold mergeInsertSortVector in *. rewrite Hint in *.
  split; [|split].
  - intros Hle. by destruct (Z.leb_spec (vec_size L) 10); [|lia].
  - intros Hle. assert (vec_size L <= 10) as H10 by lia.
    specialize (Hperm (or_introl H10)).
    destruct L as [|x [|y L]]; [| |rewrite !vec_size_cons in Hle;
                                    pose proof (vec_size_nonneg L); lia].
    + by apply Permutation_nil_r.
    + by apply Permutation_singleton_r.
  - intros ->. done.
Qed.

Lemma base_case_boundary_witness :
  exists out,
    mergeInsertSortVector [5; 3; 8; 1; 9; 2; 7; 4; 6; 10; 11] = Some out /\
    StronglySorted Z.le out /\
    (vec_size [5; 3; 8; 1; 9; 2; 7; 4; 6; 10; 11] <= 10 \/
     last [5; 3; 8; 1; 9; 2; 7; 4; 6; 10; 11] <> Some (-1) ->
       out ≡ₚ [5; 3; 8; 1; 9; 2; 7; 4; 6; 10; 11]) /\
    (vec_size [5; 3; 8; 1; 9; 2; 7; 4; 6; 10; 11] <= 10 ->
       mergeInsertSortVector [5; 3; 8; 1; 9; 2; 7; 4; 6; 10; 11]
       = insertionSortVector [5; 3; 8; 1; 9; 2; 7; 4; 6; 10; 11] 0
           (vec_size [5; 3; 8; 1; 9; 2; 7; 4; 6; 10; 11] - 1)) /\
    (vec_size [5; 3; 8; 1; 9; 2; 7; 4; 6; 10; 11] <= 1 ->
       out = [5; 3; 8; 1; 9; 2; 7; 4; 6; 10; 11]) /\
    (vec_size [5; 3; 8; 1; 9; 2; 7; 4; 6; 10; 11] = 11 ->
       mergeInsertSortVector [5; 3; 8; 1; 9; 2; 7; 4; 6; 10; 11]
       = pairing_path_vector [5; 3; 8; 1; 9; 2; 7; 4; 6; 10; 11] 11).
Proof. apply base_case_boundary. by vm_compute. Defined.

(** ** C10 *)

Lemma range_split (arr : list Z) (left right : Z) :
  0 <= left -> left <= right -> right < vec_size arr ->
  exists pre mid post, arr = pre ++ mid ++ post /\
    vec_size pre = left /\ vec_size mid = right - left + 1.
Proof.
  intros Hl Hlr Hr. unfold vec_size in *.
  exists (take (Z.to_nat left) arr), (slice arr left right),
         (drop (Z.to_nat (right - left + 1)) (drop (Z.to_nat left) arr)).
  split; [|split].
  - unfold slice. by rewrite !take_drop.
  - rewrite length_take. lia.
  - unfold slice. rewrite length_take, length_drop. lia.
Qed.

Lemma slice_middle (pre mid post : list Z) (left right : Z) :
  vec_size pre = left -> vec_size mid = right - left + 1 ->
  slice (pre ++ mid ++ post) left right = mid.
Proof.
  intros Hp Hm. unfold slice, vec_size in *.
  rewrite drop_app_length' by lia. by rewrite take_app_length' by lia.
Qed.

Lemma vec_get_frame (pre mid mid' post : list Z) (left right i : Z) :
  vec_size pre = left -> vec_size mid = right - left + 1 ->
  length mid' = length mid -> i < left \/ right < i ->
  vec_get (pre ++ mid' ++ post) i = vec_get (pre ++ mid ++ post) i.
Proof.
  intros Hp Hm Hlen Hi. unfold vec_get, vec_size in *.
  destruct (Z.leb_spec 0 i); [|done].
  destruct Hi as [Hi|Hi].
  - by rewrite !lookup_app_l by lia.
  - rewrite !(lookup_app_r pre) by lia.
    rewrite !lookup_app_r by lia. by rewrite Hlen.
Qed.

(** C10: for [int] indices [0 <= left <= right < arr.size()] with [right]
    below [INT_MAX] (the counter [i] of the loop ends at [right + 1]),
    [insertionSortVector arr left right] returns a vector of the same size
    that differs from [arr] only in the positions [left .. right]; that range
    is ascending and holds the elements it held before. *)
Theorem insertionSortVector_frame (arr : list Z) (left right : Z) :
  0 <= left -> left <= right -> right < vec_size arr -> right < INT_MAX ->
  exists out, insertionSortVector arr left right = Some out /\
    vec_size out = vec_size arr /\
    (forall i, i < left \/ right < i -> vec_get out i = vec_get arr i) /\
    StronglySorted Z.le (slice out left right) /\
    slice out left right ≡ₚ slice arr left right.
Proof.
  intros Hl Hlr Hr Hint.
  rewrite insertionSortVector_range by (unfold INT_MIN; lia).
  destruct (range_split arr left right Hl Hlr Hr)
    as (pre & mid & post & -> & Hpre & Hmid).
  destruct (insertion_sort_range_spec Z.gtb id (fun _ _ => eq_refl)
              pre mid post left right)
    as (out & Hout & Hs & Hp); [done|lia|].
  exists (pre ++ out ++ post). split; [done|].
  pose proof (Permutation_length Hp) as Hlen.
  split; [|split; [|split]].
  - unfold vec_size. rewrite !length_app. lia.
  - intros i Hi. by apply (vec_get_frame pre mid out post left right).
  - rewrite slice_middle; [done|done|]. unfold vec_size in *. lia.
  - rewrite !slice_middle; [done|done|done|done|]. unfold vec_size in *. lia.
Qed.

Lemma insertionSortVector_frame_witness :
  exists out, insertionSortVector [5; 4; 9; 1; 7; 3] 1 4 = Some out /\
    vec_size out = vec_size [5; 4; 9; 1; 7; 3] /\
    (forall i, i < 1 \/ 4 < i -> vec_get out i = vec_get [5; 4; 9; 1; 7; 3] i) /\
    StronglySorted Z.le (slice out 1 4) /\
    slice out 1 4 ≡ₚ slice [5; 4; 9; 1; 7; 3] 1 4.
Proof. apply insertionSortVector_frame; by vm_compute. Defined.

(** ** C7 *)

(** C7: for every list whose size fits an [int], the sorter of ex02, which
    inserts the pend elements in the planned order, and the sorter of
    ex02_basic, which inserts them in index order, return the same list. *)
Theorem planned_equals_sequential (L : list Z) :
  size_fits_int L ->
  exists out, mergeInsertSortVector L = Some out /\
              Basic.mergeInsertSortVector L = Some out.
Proof.
  intros Hfit.
  destruct (mergeInsertSortVector_spec L Hfit) as (out & Hout & Hso).
  destruct (basic_mergeInsertSortVector_spec L Hfit) as (out' & Hout' & Hso').
  exists out. split; [done|].
  by rewrite (sorted_output_unique L out out').
Qed.

Lemma planned_equals_sequential_witness :
  exists out,
    mergeInsertSortVector
      [9; 2; 21; 15; 20; 3; 7; 8; 14; 1; 16; 11; 19; 4; 13; 6; 18; 5; 17; 10; 12]
      = Some out /\
    Basic.mergeInsertSortVector
      [9; 2; 21; 15; 20; 3; 7; 8; 14; 1; 16; 11; 19; 4; 13; 6; 18; 5; 17; 10; 12]
      = Some out.
Proof. apply planned_equals_sequential. by vm_compute. Defined.

(** ** C8 *)

Lemma pairing_path_deque_vector (arr : list Z) (n : Z) :
  pairing_path_deque arr n = pairing_path_vector arr n.
Proof.
  unfold pairing_path_deque, pairing_path_vector.
  destruct (make_pairs arr n) as [[pairs i]|]; [simpl|done].
  destruct (take_straggler arr n i) as [st|]; [simpl|done].
  destruct (sort_pairs pairs) as [sorted|]; [simpl|done].
  destruct (split_pairs sorted) as [[mainChain pend]|]; [simpl|done].
  destruct pend as [|p0 pend']; [done|].
  rewrite !bool_decide_eq_false_2 by done. simpl.
  by rewrite front_insert.
Qed.

(** C8: for every input the vector sorter and the deque sorter of ex02 give
    the same outcome: the same output sequence, or no result for both. *)
Theorem vector_equals_deque (L : list Z) :
  mergeInsertSortDeque L = mergeInsertSortVector L.
Proof.
  unfold mergeInsertSortDeque, mergeInsertSortVector.
  by rewrite pairing_path_deque_vector.
Qed.

(** ** C9 *)

(** C9 fails as stated: eleven negative numbers with -1 the largest.  The
    first run keeps them all; in the second run -1 is the last element and is
    dropped. *)
Lemma sort_twice_differs :
  mergeInsertSortVector [-1; -2; -3; -4; -5; -6; -7; -8; -9; -10; -11]
    = Some [-11; -10; -9; -8; -7; -6; -5; -4; -3; -2; -1] /\
  mergeInsertSortVector [-11; -10; -9; -8; -7; -6; -5; -4; -3; -2; -1]
    = Some [-11; -10; -9; -8; -7; -6; -5; -4; -3; -2] /\
  [-11; -10; -9; -8; -7; -6; -5; -4; -3; -2]
    <> [-11; -10; -9; -8; -7; -6; -5; -4; -3; -2; -1].
Proof. repeat split; by vm_compute. Qed.

(** The last element of an ascending list is its largest. *)
Lemma sorted_last_max (l : list Z) (m : Z) :
  StronglySorted Z.le l ->
  last l = Some m <-> m ∈ l /\ Forall (fun x => x <= m) l.
Proof.
  intros Hs.
  assert (forall m', last l = Some m' -> m' ∈ l /\ Forall (fun x => x <= m') l)
    as Hmax.
  { intros m' Hlast. split.
    - rewrite last_lookup in Hlast. by eapply list_elem_of_lookup_2.
    - apply last_Some in Hlast as [l' ->].
      apply StronglySorted_app in Hs as (Hcross & _ & _).
      apply Forall_app. split; [|by apply Forall_singleton].
      apply Forall_forall. intros x Hx. apply (Hcross x m' Hx).
      by apply list_elem_of_singleton. }
  split; [apply Hmax|]. intros [Hin Hall].
  destruct (last l) as [m'|] eqn:Hlast.
  - destruct (Hmax m' eq_refl) as [Hin' Hall'].
    rewrite Forall_forall in Hall, Hall'.
    specialize (Hall m' Hin'). specialize (Hall' m Hin). f_equal. lia.
  - apply last_None in Hlast. subst l. by apply elem_of_nil in Hin.
Qed.

(** When the first run keeps every element, the second run drops one exactly
    when the sentinel surfaces. *)
Lemma resorted_dropped (L out : list Z) :
  straggler_dropped L = false -> StronglySorted Z.le out -> out ≡ₚ L ->
  straggler_dropped out = sentinel_surfaces L.
Proof.
  intros Hkept Hs Hp. unfold straggler_dropped, sentinel_surfaces in *.
  replace (vec_size out) with (vec_size L)
    by (unfold vec_size; by rewrite (Permutation_length Hp)).
  destruct ((10 <? vec_size L) && Z.odd (vec_size L)); [simpl in *|done].
  apply bool_decide_eq_false in Hkept.
  rewrite (bool_decide_eq_false_2 _ Hkept). simpl.
  destruct (decide (last out = Some (-1))) as [Hlast|Hlast].
  - rewrite bool_decide_eq_true_2 by done. symmetry.
    apply (sorted_last_max out (-1) Hs) in Hlast as [Hin Hall].
    rewrite bool_decide_eq_true_2 by (by rewrite <- Hp). simpl.
    apply forallb_forall. intros x Hx. apply Z.leb_le.
    rewrite Forall_forall in Hall. apply Hall. rewrite Hp.
    by apply list_elem_of_In.
  - rewrite bool_decide_eq_false_2 by done. symmetry.
    apply not_true_is_false. intros [Hin Hall]%andb_prop.
    apply Hlast, (sorted_last_max out (-1) Hs).
    apply bool_decide_eq_true in Hin. split; [by rewrite Hp|].
    apply Forall_forall. intros x Hx. apply Z.leb_le.
    rewrite forallb_forall in Hall. apply Hall, list_elem_of_In.
    by rewrite <- Hp.
Qed.

(** C9, as the code has it: for every list [L] whose size fits an [int],
    both runs return, and sorting the output of [mergeInsertSortVector] again
    returns it unchanged, except when [L] has an odd length above 10, -1 is
    its largest element and its last element is not -1; in that case, and in
    no other, the second run returns another list. *)
Theorem sort_idempotent (L : list Z) :
  size_fits_int L ->
  exists out out2,
    mergeInsertSortVector L = Some out /\
    mergeInsertSortVector out = Some out2 /\
    (out2 = out <-> sentinel_surfaces L = false).
Proof.
  intros Hfit.
  destruct (mergeInsertSortVector_spec L Hfit) as (out & Hout & Hso).
  pose proof (sorted_output_size L out Hso) as Hsize.
  pose proof (vec_size_nonneg out) as Hout0.
  destruct (mergeInsertSortVector_spec out) as (out2 & Hout2 & Hso2).
  { unfold size_fits_int in *. destruct (straggler_dropped L); lia. }
  exists out, out2. split; [done|]. split; [done|].
  pose proof (sorted_output_size out out2 Hso2) as Hsize2.
  destruct Hso as (Hs & Hk & Hd). destruct Hso2 as (Hs2 & Hk2 & _).
  destruct (straggler_dropped L) eqn:HL.
  - (* the first run drops the straggler: an even length is left *)
    assert (sentinel_surfaces L = false) as ->.
    { unfold straggler_dropped, sentinel_surfaces in *.
      apply andb_prop in HL as [_ HL]. rewrite HL. simpl.
      by rewrite andb_false_r. }
    assert (straggler_dropped out = false) as Hkept.
    { unfold straggler_dropped in *.
      apply andb_prop in HL as [[_ Hodd]%andb_prop _].
      replace (vec_size out) with (vec_size L - 1) by lia.
      rewrite Z.odd_sub, Hodd. simpl. by rewrite andb_false_r. }
    split; [done|]. intros _.
    apply (StronglySorted_unique Z.le); [done..|]. by apply Hk2.
  - (* the first run keeps every element *)
    rewrite <- (resorted_dropped L out HL Hs (Hk eq_refl)).
    split.
    + intros ->. destruct (straggler_dropped out); [lia|done].
    + intros Hkept.
      apply (StronglySorted_unique Z.le); [done..|]. by apply Hk2.
Qed.

Lemma sort_idempotent_witness :
  exists out out2,
    mergeInsertSortVector [5; -1; 3; 8; 1; 9; 2; 7; 4; 6; 10] = Some out /\
    mergeInsertSortVector out = Some out2 /\
    (out2 = out <-> sentinel_surfaces [5; -1; 3; 8; 1; 9; 2; 7; 4; 6; 10] = false).
Proof. apply sort_idempotent. by vm_compute. Defined.

(** * Further properties of the code *)

(** ** [jacobsthal] beyond the reference range *)

Lemma J_closed (k : nat) : 3 * J k = 2 ^ Z.of_nat k - (-1) ^ Z.of_nat k.
Proof.
  induction k as [|k IH]; [done|].
  pose proof (J_sum k) as Hsum.
  rewrite Nat2Z.inj_succ, !Z.pow_succ_r by lia. lia.
Qed.

(** X1: for every index below [SIZE_MAX], [jacobsthal] follows the recurrence
    in the arithmetic of [size_t]: the value is
    [jacobsthal (n-1) + 2 * jacobsthal (n-2)] modulo [2^64]. *)
Theorem jacobsthal_wrapping_recurrence (n : Z) :
  2 <= n -> n < SIZE_MAX ->
  exists a b, jacobsthal (n - 2) = Some a /\ jacobsthal (n - 1) = Some b /\
    jacobsthal n = Some ((b + 2 * a) mod 2 ^ 64).
Proof.
  intros Hn2 Hn.
  exists (wrap64 (J (Z.to_nat (n - 2)))), (wrap64 (J (Z.to_nat (n - 1)))).
  rewrite !jacobsthal_wrap by lia. repeat split. f_equal.
  change ((?x) mod 2 ^ 64) with (wrap64 x). rewrite wrap64_step.
  replace (Z.to_nat n) with (S (S (Z.to_nat (n - 2)))) by lia.
  rewrite J_step. do 3 f_equal. lia.
Qed.

Lemma jacobsthal_wrapping_recurrence_witness :
  exists a b, jacobsthal (66 - 2) = Some a /\ jacobsthal (66 - 1) = Some b /\
    jacobsthal 66 = Some ((b + 2 * a) mod 2 ^ 64).
Proof. apply (jacobsthal_wrapping_recurrence 66); by vm_compute. Defined.

(** X2: up to index 65 [jacobsthal] has the closed form
    [(2^n - (-1)^n) / 3]. *)
Theorem jacobsthal_closed_form (n : Z) :
  0 <= n <= 65 -> jacobsthal n = Some ((2 ^ n - (-1) ^ n) / 3).
Proof.
  intros Hn. rewrite jacobsthal_exact by done. f_equal.
  pose proof (J_closed (Z.to_nat n)) as Hc. rewrite Z2Nat.id in Hc by lia.
  rewrite <- Hc, Z.mul_comm. symmetry. apply Z.div_mul. lia.
Qed.

Lemma jacobsthal_closed_form_witness :
  jacobsthal 10 = Some ((2 ^ 10 - (-1) ^ 10) / 3).
Proof. apply (jacobsthal_closed_form 10). lia. Defined.

(** X3: [jacobsthal] returns for every [size_t] index except [SIZE_MAX],
    where the test [i <= n] of its loop cannot fail. *)
Theorem jacobsthal_returns_iff (n : Z) :
  0 <= n <= SIZE_MAX -> is_Some (jacobsthal n) <-> n < SIZE_MAX.
Proof.
  intros Hn. split.
  - intros [v Hv]. destruct (decide (n = SIZE_MAX)) as [Heq|]; [|lia].
    by rewrite jacobsthal_diverges in Hv.
  - intros Hlt. rewrite jacobsthal_wrap by lia. eauto.
Qed.

Lemma jacobsthal_returns_iff_witness :
  is_Some (jacobsthal 100) <-> 100 < SIZE_MAX.
Proof. apply (jacobsthal_returns_iff 100). by vm_compute. Defined.

(** X4: once the accumulator has wrapped, from index 64 on, the values of
    [jacobsthal] repeat with period 2, and none exceeds J(65). *)
Theorem jacobsthal_period (n : Z) :
  64 <= n -> n + 2 < SIZE_MAX ->
  jacobsthal (n + 2) = jacobsthal n /\
  exists v, jacobsthal n = Some v /\ 0 <= v <= J65.
Proof.
  intros Hn Hmax. rewrite !jacobsthal_wrap by lia. split.
  - f_equal. replace (Z.to_nat (n + 2)) with (S (S (Z.to_nat n))) by lia.
    apply wrap64_J_period. lia.
  - eexists. split; [done|]. split; [apply wrap64_range|apply wrap64_J_bound].
Qed.

Lemma jacobsthal_period_witness :
  jacobsthal (70 + 2) = jacobsthal 70 /\
  exists v, jacobsthal 70 = Some v /\ 0 <= v <= J65.
Proof. apply (jacobsthal_period 70); by vm_compute. Defined.

(** ** The exact order of the planner *)

(** X5: the whole order of the planner, for [pendSize] from 1 to J(65) when
    the allocator grants [pendSize] elements to [inserted] and to [order]:
    the blocks that end at J(3), J(4), ... (the Jacobsthal numbers below
    [pendSize]) and at [pendSize - 1], each block running down to the index
    above the previous boundary; then index 0, which the loop for the
    remaining elements adds last. *)
Theorem planner_order_exact (al : Allocator) (pendSize : Z) (order0 : list Z) :
  1 <= pendSize -> pendSize <= J65 ->
  pendSize <= max_bools al -> pendSize <= max_size_ts al ->
  exists c : nat,
    Forall (fun x => x < pendSize) (J <$> seq 3 c) /\ pendSize <= J (3 + c) /\
    generateJacobsthalInsertionOrder al pendSize order0
      = Some (desc_blocks 0 ((J <$> seq 3 c) ++ [pendSize - 1]) ++ [0]).
Proof.
  intros Hp1 Hp Hbools Hwords.
  destruct (planner_exact al pendSize Hwords order0)
    as (c & order & Hall & Hle & -> & Ho & _); [lia|done|].
  by exists c.
Qed.

Lemma planner_order_exact_witness :
  exists c : nat,
    Forall (fun x => x < 12) (J <$> seq 3 c) /\ 12 <= J (3 + c) /\
    generateJacobsthalInsertionOrder (mkAllocator 12 12) 12 []
      = Some (desc_blocks 0 ((J <$> seq 3 c) ++ [12 - 1]) ++ [0]).
Proof. apply planner_order_exact; by vm_compute. Defined.

(** ** When the planner returns *)

(** A run that a stricter allocator lets through is the run of a more
    generous one. *)
Lemma push_back_alloc_mono (al al' : Allocator) (v : list Z) (x : Z)
    (v' : list Z) :
  max_size_ts al <= max_size_ts al' ->
  push_back_alloc al v x = Some v' -> push_back_alloc al' v x = Some v'.
Proof.
  intros Hw. unfold push_back_alloc.
  destruct (Z.ltb_spec (vec_size v) (max_size_ts al)); [|done].
  by destruct (Z.ltb_spec (vec_size v) (max_size_ts al')); [|lia].
Qed.

Lemma jacobsthalNums_loop_mono (al al' : Allocator) (fuel : nat)
    (pendSize : Z) (nums : list Z) :
  max_size_ts al <= max_size_ts al' ->
  jacobsthalNums_loop al fuel pendSize = Some nums ->
  jacobsthalNums_loop al' fuel pendSize = Some nums.
Proof.
  intros Hw. unfold jacobsthalNums_loop.
  destruct (while fuel _ _ _) as [[[v ix] run]|] eqn:Hnums; [|done].
  match type of Hnums with while ?f ?c ?b ?s = Some ?r =>
    match goal with |- context [while f c ?b' s] =>
      rewrite (fun Href => while_refine c b b' Href f s r Hnums)
    end
  end; [done|].
  intros [[v1 ix1] run1] s' Hs'.
  destruct (jacobsthal ix1) as [jNum|]; [simpl in *|done].
  destruct (pendSize <=? jNum);
    (destruct (push_back_alloc al v1 _) as [v'|] eqn:Hv; [|done]);
    by rewrite (push_back_alloc_mono al al' _ _ _ Hw Hv).
Qed.

Lemma planner_mono (al al' : Allocator) (pendSize : Z) (order0 order : list Z) :
  max_bools al <= max_bools al' -> max_size_ts al <= max_size_ts al' ->
  generateJacobsthalInsertionOrder al pendSize order0 = Some order ->
  generateJacobsthalInsertionOrder al' pendSize order0 = Some order.
Proof.
  intros Hb Hw.
  pose proof (push_back_alloc_mono al al') as Hpush.
  unfold generateJacobsthalInsertionOrder, new_bools.
  destruct (Z.eqb_spec pendSize 0); [done|].
  destruct (Z.leb_spec pendSize (max_bools al)); [simpl|done].
  destruct (Z.leb_spec pendSize (max_bools al')); [simpl|lia].
  (* the boundaries *)
  destruct (jacobsthalNums_loop al _ _) as [nums|] eqn:Hnums; [|done].
  rewrite (jacobsthalNums_loop_mono al al' _ _ _ Hw Hnums).
  simpl.
  (* the blocks *)
  destruct (while (S (length nums)) _ _ _) as [[[[o ins] prev] i]|] eqn:Hblocks;
    [simpl|done].
  match type of Hblocks with while ?f ?c ?b ?s = Some ?r =>
    match goal with |- context [while f c ?b' s] =>
      rewrite (fun Href => while_refine c b b' Href f s r Hblocks)
    end
  end.
  2:{ intros [[[o1 ins1] prev1] i1] s' Hs'.
      destruct (vec_get nums i1) as [cur|]; [simpl in Hs' |- *|done].
      destruct (while (S (Z.to_nat _)) _ _ _) as [[[o2 ins2] j2]|] eqn:Hblock;
        [|done].
      match type of Hblock with while ?f ?c ?b ?s = Some ?r =>
        match goal with |- context [while f c ?b' s] =>
          rewrite (fun Href => while_refine c b b' Href f s r Hblock)
        end
      end; [done|].
      intros [[o3 ins3] j3] s3 Hs3.
      destruct (if j3 <? pendSize then _ else _) as [[|]|]; simpl in *; [|done..].
      destruct (push_back_alloc al o3 j3) as [o4|] eqn:Ho4; [|done].
      by rewrite (Hpush _ _ _ Hw Ho4). }
  simpl.
  (* the remaining indices *)
  destruct (while (S (Z.to_nat pendSize)) _ _ _) as [[o5 i5]|] eqn:Hrest;
    [simpl|done].
  match type of Hrest with while ?f ?c ?b ?s = Some ?r =>
    match goal with |- context [while f c ?b' s] =>
      rewrite (fun Href => while_refine c b b' Href f s r Hrest)
    end
  end; [done|].
  intros [o6 i6] s6 Hs6.
  destruct (vec_get ins i6) as [[|]|]; simpl in *; [done| |done].
  destruct (push_back_alloc al o6 i6) as [o7|] eqn:Ho7; [|done].
  by rewrite (Hpush _ _ _ Hw Ho7).
Qed.

(** [order] never outgrows what the allocator grants. *)
Lemma planner_order_size (al : Allocator) (pendSize : Z) (order0 order : list Z) :
  pendSize <> 0 ->
  generateJacobsthalInsertionOrder al pendSize order0 = Some order ->
  order = [] \/ vec_size order <= max_size_ts al.
Proof.
  intros Hp.
  assert (forall v x v', push_back_alloc al v x = Some v' ->
            v' = [] \/ vec_size v' <= max_size_ts al) as Hpush.
  { intros v x v'. unfold push_back_alloc, push_back.
    destruct (Z.ltb_spec (vec_size v) (max_size_ts al)); [|done].
    intros ?. simplify_eq. right. rewrite vec_size_app, vec_size_cons, vec_size_nil.
    lia. }
  unfold generateJacobsthalInsertionOrder.
  destruct (Z.eqb_spec pendSize 0); [done|].
  destruct (new_bools al pendSize false) as [inserted|]; [simpl|done].
  destruct (jacobsthalNums_loop al _ _) as [nums|]; [simpl|done].
  destruct (while (S (length nums)) _ _ _) as [[[[o ins] prev] i]|] eqn:Hblocks;
    [simpl|done].
  eapply (while_partial _ _
    (fun st : list Z * list bool * Z * Z => let '(o, _, _, _) := st in
       o = [] \/ vec_size o <= max_size_ts al)) in Hblocks; [| |by left].
  2:{ intros [[[o1 ins1] prev1] i1] [[[o1' ins1'] prev1'] i1'] Ho1 _ Hs'.
      destruct (vec_get nums i1) as [cur|]; [simpl in Hs'|done].
      destruct (while (S (Z.to_nat _)) _ _ _) as [[[o2 ins2] j2]|] eqn:Hblock;
        [|done].
      simpl in Hs'. simplify_eq.
      eapply (while_partial _ _
        (fun st : list Z * list bool * Z => let '(o, _, _) := st in
           o = [] \/ vec_size o <= max_size_ts al)) in Hblock; [| |done].
      - by destruct Hblock.
      - intros [[o3 ins3] j3] [[o3' ins3'] j3'] Ho3 _ Hs3.
        destruct (if j3 <? pendSize then _ else _) as [[|]|];
          simpl in Hs3; [|by simplify_eq|done].
        destruct (push_back_alloc al o3 j3) as [o4|] eqn:Ho4; [simpl in Hs3|done].
        destruct (vec_set ins3 j3 true); [simpl in Hs3|done].
        simplify_eq. by eapply Hpush. }
  destruct Hblocks as [Ho _].
  destruct (while (S (Z.to_nat pendSize)) _ _ _) as [[o5 i5]|] eqn:Hrest;
    [simpl|done].
  eapply (while_partial _ _
    (fun st : list Z * Z => let '(o, _) := st in
       o = [] \/ vec_size o <= max_size_ts al)) in Hrest; [| |done].
  - intros ?. simplify_eq. by destruct Hrest.
  - intros [o6 i6] [o6' i6'] Ho6 _ Hs6.
    destruct (vec_get ins i6) as [[|]|]; simpl in Hs6; [by simplify_eq| |done].
    destruct (push_back_alloc al o6 i6) as [o7|] eqn:Ho7; [simpl in Hs6|done].
    simplify_eq. by eapply Hpush.
Qed.

(** X20: the planner returns an order for [pendSize >= 1] exactly when
    [pendSize] is at most J(65) and the allocator grants [pendSize] elements
    to [inserted] and to [order].  Otherwise the call ends in a refused
    allocation or never leaves the boundary loop. *)
Theorem planner_returns_iff (al : Allocator) (pendSize : Z) (order0 : list Z) :
  1 <= pendSize ->
  (exists order, generateJacobsthalInsertionOrder al pendSize order0 = Some order)
  <-> pendSize <= J65 /\ pendSize <= max_bools al /\ pendSize <= max_size_ts al.
Proof.
  intros Hp. split.
  - intros [order Ho].
    assert (pendSize <= J65) as HJ.
    { destruct (Z.le_gt_cases pendSize J65) as [|Hgt]; [done|].
      by rewrite planner_diverges in Ho. }
    assert (pendSize <= max_bools al) as Hb.
    { unfold generateJacobsthalInsertionOrder, new_bools in Ho.
      destruct (Z.eqb_spec pendSize 0); [lia|].
      by destruct (Z.leb_spec pendSize (max_bools al)). }
    split; [done|]. split; [done|].
    set (al' := mkAllocator (max_bools al) (Z.max pendSize (max_size_ts al))).
    pose proof (planner_mono al al' pendSize order0 order) as Ho'.
    destruct (planner_exact al' pendSize ltac:(simpl; lia) order0)
      as (c & order' & _ & _ & _ & Hex & Hnd & Hiff); [lia|done|].
    rewrite Ho' in Hex by (simpl; (done || lia)). simplify_eq.
    assert (vec_size order' = pendSize) as Hsize.
    { assert (order' ≡ₚ seqZ 0 pendSize) as Hperm.
      { apply NoDup_Permutation; [done|apply NoDup_seqZ|].
        intros x. rewrite Hiff, elem_of_seqZ. lia. }
      unfold vec_size. rewrite (Permutation_length Hperm), length_seqZ. lia. }
    destruct (planner_order_size al pendSize order0 order' ltac:(lia) Ho)
      as [->|Hle]; [|lia].
    rewrite vec_size_nil in Hsize. lia.
  - intros (HJ & Hb & Hw).
    destruct (planner_exact al pendSize Hw order0)
      as (c & order & _ & _ & _ & Ho & _); [lia|done|].
    by exists order.
Qed.

Lemma planner_returns_iff_witness :
  (exists order,
     generateJacobsthalInsertionOrder (mkAllocator 12 11) 12 [] = Some order)
  <-> 12 <= J65 /\ 12 <= max_bools (mkAllocator 12 11) /\
      12 <= max_size_ts (mkAllocator 12 11).
Proof. apply planner_returns_iff. by vm_compute. Defined.

(** ** Binary search and insertion on any chain *)



Lemma filter_all (P : Z -> Prop) `{!forall y, Decision (P y)} (l : list Z) :
  Forall P l -> filter P l = l.
Proof.
  induction 1 as [|y l Hy _ IH]; [done|].
  by rewrite filter_cons_True, IH.
Qed.

Lemma filter_none (P : Z -> Prop) `{!forall y, Decision (P y)} (l : list Z) :
  Forall (fun y => ~ P y) l -> filter P l = [].
Proof.
  induction 1 as [|y l Hy _ IH]; [done|].
  by rewrite filter_cons_False.
Qed.

(** X7: on an ascending chain [lower_bound] returns the number of elements
    smaller than [val]: the insertion position is before any element equal
    to [val]. *)
Theorem lower_bound_counts_smaller (v : list Z) (val : Z) :
  StronglySorted Z.le v ->
  lower_bound v val = Some (vec_size (filter (fun y => y < val) v)).
Proof.
  intros Hs.
  destruct (lower_bound_spec v val Hs) as (l1 & l2 & -> & -> & Hl1 & Hl2).
  rewrite filter_app, (filter_all _ l1 Hl1), filter_none, app_nil_r; [done|].
  eapply Forall_impl; [done|]. simpl. lia.
Qed.

Lemma lower_bound_counts_smaller_witness :
  lower_bound [1; 3; 3; 5; 7] 3
  = Some (vec_size (filter (fun y => y < 3) [1; 3; 3; 5; 7])).
Proof. apply lower_bound_counts_smaller. repeat constructor; lia. Defined.

(** ** The pairing loop *)

Lemma pair_up_snoc2 (k : nat) (l : list Z) (a b : Z) :
  length l = (2 * k)%nat ->
  pair_up (l ++ [a; b]) = pair_up l ++ [(Z.min a b, Z.max a b)].
Proof.
  revert l. induction k as [|k IH]; intros l Hl.
  - by destruct l.
  - destruct l as [|x [|y l]]; simpl in Hl; try lia.
    simpl. rewrite IH by lia. done.
Qed.

Lemma pair_up_snoc1 (k : nat) (l : list Z) (a : Z) :
  length l = (2 * k)%nat -> pair_up (l ++ [a]) = pair_up l.
Proof.
  revert l. induction k as [|k IH]; intros l Hl.
  - by destruct l.
  - destruct l as [|x [|y l]]; simpl in Hl; try lia.
    simpl. rewrite IH by lia. done.
Qed.

(** X8: the pairing loop of the drivers returns exactly the pairs
    [(min, max)] of the consecutive elements [arr[2k]], [arr[2k+1]], in the
    order of the input, and stops at the even index [2 * (n / 2)]. *)
Theorem make_pairs_exact (arr : list Z) :
  make_pairs arr (vec_size arr)
  = Some (pair_up arr, 2 * (vec_size arr / 2)).
Proof.
  unfold make_pairs. set (n := vec_size arr).
  while_inv
    (fun st : list Pair * Z => let '(pairs, i) := st in
       0 <= i <= n /\ (exists k : nat, i = 2 * Z.of_nat k) /\
       pairs = pair_up (take (Z.to_nat i) arr))
    (fun st : list Pair * Z => let '(_, i) := st in n - i);
    [| | |destruct Hw as ([pairs i] & -> & (Hi & [k Hk] & ->) & Hex)].
  - intros [pairs i] (Hi & [k Hk] & ->). split; [lia|].
    eexists. split; [done|]. intros Hlt%Z.ltb_lt.
    destruct (vec_get_in_range arr i) as (a & -> & Ha); [lia|].
    destruct (vec_get_in_range arr (i + 1)) as (b & -> & Hb); [lia|].
    simpl. eexists. split; [done|]. split; [|lia].
    split; [lia|]. split; [exists (S k); lia|].
    replace (Z.to_nat (i + 1)) with (S (Z.to_nat i)) in Hb by lia.
    replace (Z.to_nat (i + 2)) with (S (S (Z.to_nat i))) by lia.
    rewrite (take_S_r _ _ _ Hb), (take_S_r _ _ _ Ha), <- app_assoc. simpl.
    rewrite (pair_up_snoc2 k) by (rewrite length_take; unfold n, vec_size in *; lia).
    unfold push_back. do 2 f_equal.
    destruct (Z.gtb_spec a b); f_equal; lia.
  - subst n. pose proof (vec_size_nonneg arr). split; [lia|].
    split; [by exists 0%nat|done].
  - lia.
  - injection Hex as Hex%Z.ltb_ge.
    pose proof (Z.div_mod n 2). pose proof (Z.mod_pos_bound n 2).
    assert (i = 2 * (n / 2)) as Hi2 by lia. rewrite <- Hi2. do 2 f_equal.
    destruct (decide (i = n)) as [->|Hne].
    + rewrite take_ge; [done|]. unfold n, vec_size. lia.
    + destruct (vec_get_in_range arr i) as (x & _ & Hx); [lia|].
      assert (take (Z.to_nat i) arr ++ [x] = arr) as Harr.
      { rewrite <- (take_S_r _ _ _ Hx). apply take_ge. unfold n, vec_size in *. lia. }
      rewrite <- Harr at 2. symmetry. apply (pair_up_snoc1 k).
      rewrite length_take. unfold n, vec_size in *. lia.
Qed.

(** ** Stability of the insertion sort *)

Section insertion_sort_stable.
Context {A : Type} (gt : A -> A -> bool) (key : A -> Z).
Context (Hgt : forall x y, gt x y = (key x >? key y)).

(** The elements whose key is [k], in order. *)
Definition with_key (k : Z) (l : list A) : list A :=
  filter (fun y => key y = k) l.

Lemma with_key_insert (k : Z) (s1 s2 rest : list A) (x : A) :
  Forall (fun y => key x < key y) s2 ->
  with_key k ((s1 ++ x :: s2) ++ rest) = with_key k ((s1 ++ s2) ++ x :: rest).
Proof.
  intros Hs2. unfold with_key. rewrite !filter_app, !filter_cons.
  destruct (decide (key x = k)) as [Hk|Hk]; [|done].
  assert (filter (fun y => key y = k) s2 = []) as ->.
  { clear -Hs2 Hk. induction Hs2 as [|y s2 Hy _ IH]; [done|].
    rewrite filter_cons_False by lia. done. }
  by rewrite app_nil_r, <- app_assoc.
Qed.

(** The sort of a range keeps elements with equal keys in the order they
    had. *)
Lemma insertion_sort_range_stable (pre mid post : list A) (left right : Z) :
  left = vec_size pre -> right = left + vec_size mid - 1 ->
  exists out,
    insertion_sort_range gt (pre ++ mid ++ post) left right
      = Some (pre ++ out ++ post) /\
    forall k, with_key k out = with_key k mid.
Proof.
  intros Hleft Hright. unfold insertion_sort_range.
  while_inv
    (fun st : list A * Z => let '(arr, i) := st in
       exists s rest, arr = pre ++ s ++ rest ++ post /\
         vec_size s + vec_size rest = vec_size mid /\
         (forall k, with_key k (s ++ rest) = with_key k mid) /\
         (mid = [] /\ i = left + 1 \/ s <> [] /\ i = left + vec_size s))
    (fun st : list A * Z => let '(_, i) := st in Z.max 0 (right + 1 - i));
    [| | |destruct Hw as ([arr i] & -> & (s & rest & -> & Hlen & Hst & Hi) & Hex)].
  - intros [arr i] (s & rest & -> & Hlen & Hst & Hi). split; [lia|].
    eexists. split; [done|]. intros Hle%Z.leb_le.
    destruct Hi as [[-> ->]|[Hne ->]]; [vsize|].
    destruct rest as [|x rest']; [vsize|].
    rewrite (vec_get_middle2 pre s (rest' ++ post) x) by lia. simpl.
    replace (left + vec_size s - left) with (vec_size s) by lia.
    destruct (shift_loop gt key Hgt pre s (rest' ++ post) x left
                (S (Z.to_nat (vec_size s))))
      as (s1 & s2 & d & -> & -> & Hs2 & Hlast); [done|vsize|]. simpl.
    rewrite (vec_set_middle2 pre s1 (s2 ++ rest' ++ post) x d) by lia. simpl.
    eexists. split; [done|]. split; [|lia].
    exists (s1 ++ x :: s2), rest'. split; [by rewrite <- !app_assoc|].
    split; [vsize|]. split; [|right; split].
    + intros k. rewrite <- Hst. by apply with_key_insert.
    + by destruct s1.
    + vsize.
  - destruct mid as [|m0 mid'].
    + exists [], []. repeat split; try done. by left.
    + exists [m0], mid'. repeat split; try done; [vsize|].
      right. split; [done|vsize].
  - lia.
  - simpl. injection Hex as Hex%Z.leb_gt.
    assert (rest = []) as ->.
    { destruct Hi as [[-> ->]|[Hne ->]]; destruct rest; try done; vsize. }
    exists s. split; [done|]. intros k. rewrite <- Hst. by rewrite app_nil_r.
Qed.

End insertion_sort_stable.

(** X9: the sort of the pairs by their larger element is stable: the output
    is ascending in [second], a permutation of the input, and pairs with the
    same [second] keep the order they had (the comparison
    [pairs[k].second > key.second] is strict). *)
Theorem sort_pairs_stable (pairs : list Pair) :
  exists out, sort_pairs pairs = Some out /\
    StronglySorted (key_le snd) out /\ out ≡ₚ pairs /\
    forall k, filter (fun p : Pair => p.2 = k) out
              = filter (fun p : Pair => p.2 = k) pairs.
Proof.
  destruct (sort_pairs_spec pairs) as (out & Hout & Hs & Hp).
  exists out. split; [done|]. split; [done|]. split; [done|].
  destruct (insertion_sort_range_stable (fun p key : Pair => p.2 >? key.2) snd
              (fun _ _ => eq_refl) [] pairs [] 0 (vec_size pairs - 1))
    as (out' & Hout' & Hst); [done|lia|].
  rewrite !app_nil_r in Hout'. simpl in Hout'.
  unfold sort_pairs in Hout. rewrite Hout' in Hout. by simplify_eq.
Qed.

(** ** The four sorters *)

Lemma basic_pairing_path_deque_vector (arr : list Z) (n : Z) :
  Basic.pairing_path_deque arr n = Basic.pairing_path_vector arr n.
Proof.
  unfold Basic.pairing_path_deque, Basic.pairing_path_vector.
  destruct (make_pairs arr n) as [[pairs i]|]; [simpl|done].
  destruct (take_straggler arr n i) as [st|]; [simpl|done].
  destruct (sort_pairs pairs) as [sorted|]; [simpl|done].
  destruct (split_pairs sorted) as [[mainChain pend]|]; [simpl|done].
  destruct pend as [|p0 pend']; [done|].
  rewrite !bool_decide_eq_false_2 by done. simpl.
  by rewrite front_insert.
Qed.

(** X10: for every input the vector sorter and the deque sorter of
    ex02_basic give the same outcome. *)
Theorem basic_vector_equals_deque (L : list Z) :
  Basic.mergeInsertSortDeque L = Basic.mergeInsertSortVector L.
Proof.
  unfold Basic.mergeInsertSortDeque, Basic.mergeInsertSortVector.
  by rewrite basic_pairing_path_deque_vector.
Qed.

(** X11: for every list whose size fits an [int], the four sorters (vector
    and deque, ex02 and ex02_basic) return the same list: ascending, and
    holding the elements of the input, less one -1 when the -1 straggler is
    dropped. *)
Theorem all_sorters_agree (L : list Z) :
  size_fits_int L ->
  exists out, sorted_output L out /\
    mergeInsertSortVector L = Some out /\
    mergeInsertSortDeque L = Some out /\
    Basic.mergeInsertSortVector L = Some out /\
    Basic.mergeInsertSortDeque L = Some out.
Proof.
  intros Hfit.
  destruct (mergeInsertSortVector_spec L Hfit) as (out & Hout & Hso).
  destruct (mergeInsertSortDeque_spec L Hfit) as (o1 & Ho1 & Hso1).
  destruct (basic_mergeInsertSortVector_spec L Hfit) as (o2 & Ho2 & Hso2).
  destruct (basic_mergeInsertSortDeque_spec L Hfit) as (o3 & Ho3 & Hso3).
  pose proof (sorted_output_unique L out o1 Hso Hso1).
  pose proof (sorted_output_unique L out o2 Hso Hso2).
  pose proof (sorted_output_unique L out o3 Hso Hso3).
  subst o1 o2 o3. by exists out.
Qed.

Lemma all_sorters_agree_witness :
  exists out,
    sorted_output [8; 3; 12; 1; 9; 5; 11; 2; 7; 4; 10; 6; -1] out /\
    mergeInsertSortVector [8; 3; 12; 1; 9; 5; 11; 2; 7; 4; 10; 6; -1] = Some out /\
    mergeInsertSortDeque [8; 3; 12; 1; 9; 5; 11; 2; 7; 4; 10; 6; -1] = Some out /\
    Basic.mergeInsertSortVector [8; 3; 12; 1; 9; 5; 11; 2; 7; 4; 10; 6; -1]
      = Some out /\
    Basic.mergeInsertSortDeque [8; 3; 12; 1; 9; 5; 11; 2; 7; 4; 10; 6; -1]
      = Some out.
Proof. apply all_sorters_agree. by vm_compute. Defined.

(** X12: when no straggler is dropped, [mergeInsertSortVector] returns what a
    reference merge sort returns. *)
Theorem sort_matches_reference (L : list Z) :
  size_fits_int L -> straggler_dropped L = false ->
  mergeInsertSortVector L = Some (merge_sort Z.le L).
Proof.
  intros Hfit Hkept.
  destruct (mergeInsertSortVector_spec L Hfit) as (out & -> & Hs & Hk & _).
  f_equal. apply (StronglySorted_unique Z.le); [done| |].
  - apply StronglySorted_merge_sort; apply _.
  - by rewrite Hk, merge_sort_Permutation.
Qed.

Lemma sort_matches_reference_witness :
  mergeInsertSortVector [8; 3; 12; 1; 9; 5; 11; 2; 7; 4; 10; 6; 13]
  = Some (merge_sort Z.le [8; 3; 12; 1; 9; 5; 11; 2; 7; 4; 10; 6; 13]).
Proof. apply sort_matches_reference; by vm_compute. Defined.

(** ** The command line *)

Lemma digit_not_space (c : ascii) : isdigit c = true -> isspace c = false.
Proof. unfold isdigit, isspace. lia. Qed.

Lemma leading_digits_all (acc : Z) (s : list ascii) :
  forallb isdigit s = true ->
  leading_digits acc s
  = fold_left (fun a c => 10 * a + (char_code c - 48)) s acc.
Proof.
  revert acc. induction s as [|c s IH]; intros acc Hall; [done|].
  simpl in *. apply andb_prop in Hall as [-> Hall]. by apply IH.
Qed.

(** On a string of digits the C conversions read its decimal value. *)
Lemma parse_number_digits (s : list ascii) :
  forallb isdigit s = true -> parse_number s = decimal s.
Proof.
  intros Hall. unfold parse_number, decimal.
  destruct s as [|c s]; [done|].
  pose proof Hall as Hall'. simpl in Hall'. apply andb_prop in Hall' as [Hc _].
  cbn [skip_spaces]. rewrite (digit_not_space c Hc).
  unfold isdigit in Hc.
  destruct (Z.eqb_spec (char_code c) 45); [lia|].
  destruct (Z.eqb_spec (char_code c) 43); [lia|].
  by apply leading_digits_all.
Qed.

(** The digit loop of [isValidNumber] ends with [bad] set iff some character
    is not a digit. *)
Lemma digit_loop (s : list ascii) :
  exists i,
    while (S (length s))
      (fun '(i, bad) => Some ((i <? vec_size s) && negb bad))
      (fun '(i, _) =>
         c ← vec_get s i;
         if negb (isdigit c) then Some (i, true) else Some (i + 1, false))
      (0, false)
    = Some (i, negb (forallb isdigit s)).
Proof.
  while_inv
    (fun st : Z * bool => let '(i, bad) := st in
       0 <= i <= vec_size s /\
       forallb isdigit (take (Z.to_nat i) s) = true /\
       (bad = true -> exists c, s !! Z.to_nat i = Some c /\ isdigit c = false))
    (fun st : Z * bool => let '(i, bad) := st in
       if bad then 0 else vec_size s - i);
    [| | |destruct Hw as ([i bad] & -> & (Hi & Hpre & Hbad) & Hex)].
  - intros [i bad] (Hi & Hpre & Hbad). split; [destruct bad; lia|].
    eexists. split; [done|]. intros [Hlt%Z.ltb_lt Hb]%andb_prop.
    destruct bad; [done|].
    destruct (vec_get_in_range s i) as (c & -> & Hc); [lia|]. simpl.
    destruct (isdigit c) eqn:Hd; simpl.
    + eexists. split; [done|]. split; [|lia]. split; [lia|]. split; [|done].
      replace (Z.to_nat (i + 1)) with (S (Z.to_nat i)) by lia.
      rewrite (take_S_r _ _ _ Hc), forallb_app, Hpre. simpl. by rewrite Hd.
    + eexists. split; [done|]. split; [|lia]. split; [lia|]. split; [done|].
      intros _. by exists c.
  - pose proof (vec_size_nonneg s). split; [lia|]. done.
  - unfold vec_size. lia.
  - exists i. do 2 f_equal. injection Hex as Hex. destruct bad.
    + destruct (Hbad eq_refl) as (c & Hc & Hd).
      rewrite <- (take_drop_middle _ _ _ Hc), forallb_app. simpl.
      rewrite Hd. by rewrite andb_false_r.
    + rewrite andb_true_r in Hex. apply Z.ltb_ge in Hex.
      rewrite take_ge in Hpre by (unfold vec_size in *; lia). by rewrite Hpre.
Qed.

(** X13: [isValidNumber] accepts exactly the non-empty strings of decimal
    digits whose value is between 1 and 2147483647; leading zeros are
    allowed, a sign or a space is not. *)
Theorem isValidNumber_accepts (str : string) :
  isValidNumber str = Some true <->
  chars str <> [] /\ forallb isdigit (chars str) = true /\
  1 <= decimal (chars str) <= INT_MAX.
Proof.
  unfold isValidNumber.
  destruct (decide (chars str = [])) as [Hnil|Hne].
  { rewrite bool_decide_eq_true_2 by done. split; [done|]. by intros [? _]. }
  rewrite bool_decide_eq_false_2 by done.
  destruct (digit_loop (chars str)) as (i & ->). simpl.
  destruct (forallb isdigit (chars str)) eqn:Hall; simpl;
    [|split; [done|]; by intros (_ & ? & _)].
  unfold atol. rewrite parse_number_digits by done.
  unfold INT_MAX.
  destruct ((LONG_MIN <=? decimal (chars str)) &&
            (decimal (chars str) <=? LONG_MAX)) eqn:Hlong; simpl.
  - destruct (Z.leb_spec (decimal (chars str)) 0),
             (Z.gtb_spec (decimal (chars str)) 2147483647);
      simpl; (split; [intros Heq; try discriminate Heq; repeat split; (done || lia)
                     |intros (_ & _ & ?); (done || lia)]).
  - split; [done|]. intros (_ & _ & Hr). unfold LONG_MIN, LONG_MAX in Hlong. lia.
Qed.

Lemma valid_atoi (arg : string) :
  isValidNumber arg = Some true ->
  atoi arg = Some (arg_value arg) /\ 1 <= arg_value arg <= INT_MAX.
Proof.
  intros (_ & Hall & Hr)%isValidNumber_accepts. split; [|done].
  unfold atoi, arg_value. rewrite parse_number_digits by done.
  unfold INT_MIN, INT_MAX in *.
  destruct (Z.leb_spec (-2147483648) (decimal (chars arg))); [|lia].
  destruct (Z.leb_spec (decimal (chars arg)) 2147483647); [done|lia].
Qed.

(** The loop of [parseInput] over valid arguments [good], followed by nothing
    or by an argument that [isValidNumber] rejects. *)
Lemma parse_loop (prog : string) (good rest : list string) (self : PmergeMe)
    (fuel : nat) :
  Forall (fun a => isValidNumber a = Some true) good ->
  (forall bad more, rest = bad :: more -> isValidNumber bad = Some false) ->
  1 + vec_size good + vec_size rest < Z.of_nat fuel ->
  exists i,
    while fuel
      (fun '(_, i, failed) =>
         Some ((i <? vec_size (prog :: good ++ rest)) && negb failed))
      (fun '(self, i, _) =>
         arg ← vec_get (prog :: good ++ rest) i;
         valid ← isValidNumber arg;
         if negb valid then Some (self, i, true)
         else
           num ← atoi arg;
           Some (mkPmergeMe (push_back (_vectorData self) num)
                            (push_back (_dequeData self) num),
                 i + 1, false))
      (self, 1, false)
    = Some (append_values self (arg_value <$> good), i,
            negb (bool_decide (rest = []))).
Proof.
  intros Hgood Hbad Hfuel.
  assert (vec_size (prog :: good ++ rest) = 1 + vec_size good + vec_size rest)
    as Hargc by vsize.
  pose proof (vec_size_nonneg good). pose proof (vec_size_nonneg rest).
  while_inv
    (fun st : PmergeMe * Z * bool => let '(obj, i, failed) := st in
       1 <= i <= 1 + vec_size good /\
       obj = append_values self (arg_value <$> take (Z.to_nat (i - 1)) good) /\
       (failed = true -> i = 1 + vec_size good /\ rest <> []))
    (fun st : PmergeMe * Z * bool => let '(_, i, failed) := st in
       if failed then 0 else 1 + vec_size good + vec_size rest - i);
    [| | |destruct Hw as ([[obj i] failed] & -> & (Hi & -> & Hf) & Hex)].
  - intros [[obj i] failed] (Hi & -> & Hf). split; [destruct failed; lia|].
    eexists. split; [done|]. intros [Hlt%Z.ltb_lt Hnf]%andb_prop.
    destruct failed; [done|]. rewrite Hargc in Hlt.
    assert ((prog :: good ++ rest) !! Z.to_nat i
            = (good ++ rest) !! Z.to_nat (i - 1)) as Hidx.
    { replace (Z.to_nat i) with (S (Z.to_nat (i - 1))) by lia. done. }
    destruct (decide (i - 1 < vec_size good)) as [Hin|Hout].
    + destruct (vec_get_in_range good (i - 1)) as (arg & _ & Harg); [lia|].
      assert (vec_get (prog :: good ++ rest) i = Some arg) as ->.
      { apply vec_get_lookup. split; [lia|]. rewrite Hidx.
        rewrite lookup_app_l; [done|]. unfold vec_size in *. lia. }
      simpl. pose proof (Forall_lookup_1 _ _ _ _ Hgood Harg) as Hvalid.
      simpl in Hvalid. rewrite Hvalid. simpl.
      destruct (valid_atoi arg Hvalid) as [-> _]. simpl.
      eexists. split; [done|]. split; [|lia]. split; [lia|]. split; [|done].
      replace (Z.to_nat (i + 1 - 1)) with (S (Z.to_nat (i - 1))) by lia.
      rewrite (take_S_r _ _ _ Harg), fmap_app.
      unfold append_values, push_back. simpl. by rewrite !app_assoc.
    + destruct rest as [|bad more]; [rewrite vec_size_nil in *; lia|].
      assert (vec_get (prog :: good ++ bad :: more) i = Some bad) as ->.
      { apply vec_get_lookup. split; [lia|]. rewrite Hidx.
        apply list_lookup_middle. unfold vec_size in *. lia. }
      simpl. rewrite (Hbad bad more eq_refl). simpl.
      eexists. split; [done|]. split; [|lia]. split; [lia|]. split; [done|].
      intros _. split; [lia|done].
  - split; [lia|]. split; [|done]. unfold append_values. simpl.
    rewrite !app_nil_r. by destruct self.
  - simpl. lia.
  - exists i. injection Hex as Hex. rewrite Hargc in Hex.
    destruct failed.
    + destruct (Hf eq_refl) as [-> Hne].
      rewrite bool_decide_eq_false_2 by done. simpl.
      rewrite take_ge by (unfold vec_size; lia). done.
    + rewrite andb_true_r in Hex. apply Z.ltb_ge in Hex.
      assert (rest = []) as -> by (destruct rest; [done|vsize]).
      rewrite bool_decide_eq_true_2 by done. simpl.
      rewrite take_ge by (unfold vec_size in *; lia). done.
Qed.

(** X14: when every argument after the program name is a valid number,
    [parseInput] returns [true], writes nothing to [std::cerr] and appends
    the value of each argument, in order, to both containers. *)
Theorem parseInput_accepts (prog : string) (args : list string)
    (self : PmergeMe) :
  args <> [] -> Forall (fun a => isValidNumber a = Some true) args ->
  parseInput (vec_size (prog :: args)) (prog :: args) self
  = Some (true, append_values self (arg_value <$> args), []).
Proof.
  intros Hne Hvalid. unfold parseInput.
  assert (1 <= vec_size args) by (destruct args; [done|vsize]).
  rewrite vec_size_cons. destruct (Z.ltb_spec (1 + vec_size args) 2); [lia|].
  destruct (parse_loop prog args [] self (S (Z.to_nat (1 + vec_size args))))
    as (i & Hloop); [done|done|rewrite vec_size_nil; lia|].
  rewrite app_nil_r, vec_size_cons in Hloop. rewrite Hloop. done.
Qed.

Lemma parseInput_accepts_witness :
  parseInput (vec_size ["PmergeMe"; "3"; "007"; "2147483647"]%string)
    ["PmergeMe"; "3"; "007"; "2147483647"]%string PmergeMe_new
  = Some (true,
          append_values PmergeMe_new
            (arg_value <$> ["3"; "007"; "2147483647"]%string), []).
Proof. apply parseInput_accepts; [done|]. repeat constructor. Defined.

(** X15: [parseInput] stops at the first argument that [isValidNumber]
    rejects: it returns [false] after writing "Error", and the values of the
    arguments before that one stay in both containers. *)
Theorem parseInput_stops_at_first_invalid (prog : string)
    (good : list string) (bad : string) (more : list string)
    (self : PmergeMe) :
  Forall (fun a => isValidNumber a = Some true) good ->
  isValidNumber bad = Some false ->
  parseInput (vec_size (prog :: good ++ bad :: more))
    (prog :: good ++ bad :: more) self
  = Some (false, append_values self (arg_value <$> good), ["Error"%string]).
Proof.
  intros Hvalid Hbad. unfold parseInput.
  pose proof (vec_size_nonneg good). pose proof (vec_size_nonneg more).
  assert (vec_size (prog :: good ++ bad :: more)
          = 1 + vec_size good + vec_size (bad :: more)) as Hargc by vsize.
  pose proof (vec_size_cons bad more) as Hrest.
  destruct (Z.ltb_spec (vec_size (prog :: good ++ bad :: more)) 2); [lia|].
  destruct (parse_loop prog good (bad :: more) self
              (S (Z.to_nat (vec_size (prog :: good ++ bad :: more)))))
    as (i & ->); [done| |lia|done].
  intros bad' more' Heq. by simplify_eq.
Qed.

Lemma parseInput_stops_at_first_invalid_witness :
  parseInput (vec_size ("PmergeMe" :: ["3"; "9"] ++ "-1" :: ["4"])%string)
    ("PmergeMe" :: ["3"; "9"] ++ "-1" :: ["4"])%string PmergeMe_new
  = Some (false, append_values PmergeMe_new (arg_value <$> ["3"; "9"]%string),
          ["Error"%string]).
Proof.
  apply parseInput_stops_at_first_invalid; [repeat constructor|done].
Defined.

Lemma no_sentinel_kept (L : list Z) :
  Forall (fun x => 1 <= x <= INT_MAX) L -> straggler_dropped L = false.
Proof.
  intros Hall. unfold straggler_dropped.
  rewrite bool_decide_eq_false_2; [apply andb_false_r|].
  intros Hlast. rewrite last_lookup in Hlast.
  eapply Forall_lookup_1 in Hall; [|done]. simpl in Hall. lia.
Qed.

(** What [parseInput] has stored when it returns [true]. *)
Lemma parseInput_true (argv : list string) (self self' : PmergeMe)
    (err : list string) :
  parseInput (vec_size argv) argv self = Some (true, self', err) ->
  Forall (fun a => isValidNumber a = Some true) (drop 1 argv) /\
  self' = append_values self (arg_value <$> drop 1 argv).
Proof.
  unfold parseInput. set (argc := vec_size argv).
  destruct (Z.ltb_spec argc 2) as [|Hargc]; [done|].
  destruct (while _ _ _ _) as [[[obj i] failed]|] eqn:Hloop; [simpl|done].
  destruct failed; [done|]. intros Heq. simplify_eq.
  eapply (while_partial _ _
    (fun st : PmergeMe * Z * bool => let '(obj, i, failed) := st in
       1 <= i /\
       (failed = false -> i <= argc /\
          Forall (fun a => isValidNumber a = Some true)
                 (take (Z.to_nat (i - 1)) (drop 1 argv)) /\
          obj = append_values self
                  (arg_value <$> take (Z.to_nat (i - 1)) (drop 1 argv)))))
    in Hloop.
  - destruct Hloop as [(Hi & Hinv) Hex]. destruct (Hinv eq_refl) as (Hle & Hall & ->).
    injection Hex as Hex. rewrite andb_true_r in Hex. apply Z.ltb_ge in Hex.
    rewrite take_ge in * by (rewrite length_drop; unfold argc, vec_size in *; lia).
    done.
  - intros [[o k] f] [[o' k'] f'] (Hk & Hinv) Hcond Hbody.
    injection Hcond as Hcond. apply andb_prop in Hcond as [Hlt%Z.ltb_lt Hf].
    destruct f; [done|]. destruct (Hinv eq_refl) as (_ & Hall & ->).
    destruct (vec_get argv k) as [arg|] eqn:Harg; [simpl in Hbody|done].
    destruct (isValidNumber arg) as [[|]|] eqn:Hvalid; simpl in Hbody; [| |done].
    + destruct (valid_atoi arg Hvalid) as [Hatoi _]. rewrite Hatoi in Hbody.
      simpl in Hbody. simplify_eq. split; [lia|]. intros _. split; [lia|].
      apply vec_get_lookup in Harg as [_ Harg].
      assert (drop 1 argv !! Z.to_nat (k - 1) = Some arg) as Harg'.
      { rewrite lookup_drop. by replace (1 + Z.to_nat (k - 1))%nat with (Z.to_nat k) by lia. }
      replace (Z.to_nat (k + 1 - 1)) with (S (Z.to_nat (k - 1))) by lia.
      rewrite (take_S_r _ _ _ Harg'), fmap_app. split.
      * apply Forall_app. split; [done|]. by apply Forall_singleton.
      * unfold append_values, push_back. simpl. by rewrite !app_assoc.
    + simplify_eq. split; [lia|done].
  - split; [lia|]. intros _. split; [lia|]. split; [constructor|].
    unfold append_values. simpl. rewrite !app_nil_r. by destruct self.
Qed.

(** X16: from the command line to the sorted containers.  When [parseInput]
    accepts the arguments of a fresh object, both containers hold the values
    of the arguments, all between 1 and 2147483647, and the vector sorter and
    the deque sorter return the same ascending permutation of them: the -1
    sentinel of the straggler cannot meet a validated number. *)
Theorem accepted_input_is_sorted (argv : list string) (self' : PmergeMe)
    (err : list string) :
  vec_size argv <= INT_MAX ->
  parseInput (vec_size argv) argv PmergeMe_new = Some (true, self', err) ->
  _vectorData self' = arg_value <$> drop 1 argv /\
  _dequeData self' = arg_value <$> drop 1 argv /\
  Forall (fun x => 1 <= x <= INT_MAX) (arg_value <$> drop 1 argv) /\
  exists out,
    mergeInsertSortVector (_vectorData self') = Some out /\
    mergeInsertSortDeque (_dequeData self') = Some out /\
    StronglySorted Z.le out /\ out ≡ₚ arg_value <$> drop 1 argv.
Proof.
  intros Hargc [Hvalid ->]%parseInput_true. simpl.
  set (values := arg_value <$> drop 1 argv).
  split; [done|]. split; [done|].
  assert (Forall (fun x => 1 <= x <= INT_MAX) values) as Hrange.
  { apply Forall_fmap. eapply Forall_impl; [done|].
    intros a Ha. by destruct (valid_atoi a Ha). }
  split; [done|].
  assert (size_fits_int values) as Hfit.
  { unfold size_fits_int, values, vec_size in *.
    rewrite length_fmap, length_drop. lia. }
  destruct (mergeInsertSortVector_spec values Hfit) as (out & Hout & Hs & Hk & _).
  exists out. split; [done|]. split; [|split; [done|]].
  - destruct (mergeInsertSortDeque_spec values Hfit) as (out' & Hout' & Hso').
    rewrite Hout'. f_equal. symmetry.
    apply (sorted_output_unique values); [|done].
    destruct (mergeInsertSortVector_spec values Hfit) as (o & Ho & Hso).
    by simplify_eq.
  - by apply Hk, no_sentinel_kept.
Qed.

Lemma accepted_input_is_sorted_witness :
  _vectorData (append_values PmergeMe_new [8; 3; 12; 1; 9; 5; 11; 2; 7; 4; 10; 6; 13])
    = arg_value <$> drop 1
        ["PmergeMe"; "8"; "3"; "12"; "1"; "9"; "5"; "11"; "2"; "7"; "4"; "10";
     "6"; "13"]%string /\
  _dequeData (append_values PmergeMe_new [8; 3; 12; 1; 9; 5; 11; 2; 7; 4; 10; 6; 13])
    = arg_value <$> drop 1
        ["PmergeMe"; "8"; "3"; "12"; "1"; "9"; "5"; "11"; "2"; "7"; "4"; "10";
     "6"; "13"]%string /\
  Forall (fun x => 1 <= x <= INT_MAX)
    (arg_value <$> drop 1
       ["PmergeMe"; "8"; "3"; "12"; "1"; "9"; "5"; "11"; "2"; "7"; "4"; "10";
     "6"; "13"]%string) /\
  exists out,
    mergeInsertSortVector
      (_vectorData (append_values PmergeMe_new [8; 3; 12; 1; 9; 5; 11; 2; 7; 4; 10; 6; 13]))
      = Some out /\
    mergeInsertSortDeque
      (_dequeData (append_values PmergeMe_new [8; 3; 12; 1; 9; 5; 11; 2; 7; 4; 10; 6; 13]))
      = Some out /\
    StronglySorted Z.le out /\
    out ≡ₚ arg_value <$> drop 1
        ["PmergeMe"; "8"; "3"; "12"; "1"; "9"; "5"; "11"; "2"; "7"; "4"; "10";
     "6"; "13"]%string.
Proof.
  apply (accepted_input_is_sorted
           ["PmergeMe"; "8"; "3"; "12"; "1"; "9"; "5"; "11"; "2"; "7"; "4"; "10";
     "6"; "13"]%string _ []);
    by vm_compute.
Defined.

(** ** The chain and the bounds of the insertion sort *)

(** X17: one binary insertion into an ascending chain returns an ascending
    chain that holds the old elements and the new one: the main chain is
    ascending after each insertion. *)
Theorem binary_insert_keeps_ascending (mainChain : list Z) (x : Z) :
  StronglySorted Z.le mainChain ->
  exists out, binary_insert mainChain x = Some out /\
    StronglySorted Z.le out /\ out ≡ₚ x :: mainChain /\
    vec_size out = vec_size mainChain + 1.
Proof.
  intros Hs. destruct (binary_insert_spec mainChain x Hs) as (out & Hout & Hso & Hp).
  exists out. split; [done|]. split; [done|]. split; [done|].
  unfold vec_size. rewrite (Permutation_length Hp). simpl. lia.
Qed.

Lemma binary_insert_keeps_ascending_witness :
  exists out, binary_insert [1; 3; 3; 5; 7] 4 = Some out /\
    StronglySorted Z.le out /\ out ≡ₚ 4 :: [1; 3; 3; 5; 7] /\
    vec_size out = vec_size [1; 3; 3; 5; 7] + 1.
Proof. apply binary_insert_keeps_ascending. repeat constructor; lia. Defined.

Lemma vec_set_size {A} (v v' : list A) (i : Z) (x : A) :
  vec_set v i x = Some v' -> vec_size v' = vec_size v.
Proof.
  unfold vec_set. destruct (_ && _); [|done]. intros ?. simplify_eq.
  unfold vec_size. by rewrite length_insert.
Qed.

Lemma vec_get_Some_range {A} (v : list A) (i : Z) (x : A) :
  vec_get v i = Some x -> 0 <= i < vec_size v.
Proof.
  intros [Hi Hx]%vec_get_lookup. apply lookup_lt_Some in Hx.
  unfold vec_size. lia.
Qed.

(** X18: the bound [right < arr.size()] is needed: with
    [0 <= left < right] and [right >= arr.size()] the loop of
    [insertionSortVector] reaches an index outside the vector and reads
    [arr[i]] there, so the call has no defined result. *)
Theorem insertionSortVector_out_of_range (arr : list Z) (left right : Z) :
  0 <= left -> left < right -> vec_size arr <= right ->
  insertionSortVector arr left right = None.
Proof.
  intros Hl Hlr Hr. unfold insertionSortVector.
  destruct (in_int (left + 1)) as [i0|] eqn:Hi0; [simpl|done].
  apply in_int_Some in Hi0 as [-> _].
  match goal with |- context [while ?f0 ?c0 ?b0 ?s0] =>
    rewrite (while_diverges c0 b0
      (fun st : list Z * Z => let '(a, i) := st in
         vec_size a = vec_size arr /\ left + 1 <= i /\
         i <= Z.max (left + 1) (vec_size arr)))
  end; [done| |split; [done|lia]].
  intros [a i] (Hsz & Hi & Hmax). right. split.
  { f_equal. apply Z.leb_le. lia. }
  destruct (vec_get a i) as [key|] eqn:Hkey; [simpl|by left].
  apply vec_get_Some_range in Hkey.
  destruct (in_int (i - 1)) as [j0|]; [simpl|by left].
  destruct (while _ _ _ _) as [[a2 j]|] eqn:Hinner; [simpl|by left].
  eapply (while_partial _ _
    (fun st : list Z * Z => let '(a', _) := st in vec_size a' = vec_size arr))
    in Hinner; [| |done].
  - destruct Hinner as [Hsz2 _].
    destruct (in_int (j + 1)) as [j1|]; [simpl|by left].
    destruct (vec_set a2 j1 key) as [a3|] eqn:Hset; [simpl|by left].
    destruct (in_int (i + 1)) as [i'|] eqn:Hi'; [simpl|by left].
    apply in_int_Some in Hi' as [-> _].
    right. eexists. split; [done|].
    apply vec_set_size in Hset. split; [lia|]. lia.
  - intros [a1 j1] [a1' j1'] Hsz1 _ Hbody.
    destruct (vec_get a1 j1) as [y|]; [simpl in Hbody|done].
    destruct (in_int (j1 + 1)) as [j2|]; [simpl in Hbody|done].
    destruct (vec_set a1 j2 y) as [a1''|] eqn:Hset; [simpl in Hbody|done].
    destruct (in_int (j1 - 1)) as [j3|]; [simpl in Hbody|done].
    simplify_eq. apply vec_set_size in Hset. lia.
Qed.

Lemma insertionSortVector_out_of_range_witness :
  insertionSortVector [5; 4; 9; 1; 7; 3] 1 6 = None.
Proof. apply insertionSortVector_out_of_range; by vm_compute. Defined.

(** X19: [right = INT_MAX] is outside what the two functions can sort.  The
    test [i <= right] of an [int i] cannot fail then, so the loop ends only
    in undefined behaviour: [left + 1] or [++i] overflows, or [arr[i]] is
    read outside the container.  Neither call has a defined result, whatever
    the container and [left]. *)
Theorem insertion_sort_to_INT_MAX (arr : list Z) (left : Z) :
  insertionSortVector arr left INT_MAX = None /\
  insertionSortDeque arr left INT_MAX = None.
Proof.
  enough (insertionSortVector arr left INT_MAX = None) as Hv
    by (split; [done|by rewrite insertionSortDeque_vector]).
  unfold insertionSortVector.
  destruct (in_int (left + 1)) as [i0|] eqn:Hi0; [simpl|done].
  apply in_int_Some in Hi0 as [-> Hrange].
  match goal with |- context [while ?f0 ?c0 ?b0 ?s0] =>
    rewrite (while_diverges c0 b0
      (fun st : list Z * Z => let '(_, i) := st in i <= INT_MAX))
  end; [done| |simpl; lia].
  intros [a i] Hi. right. split.
  { f_equal. by apply Z.leb_le. }
  destruct (vec_get a i) as [key|]; [simpl|by left].
  destruct (in_int (i - 1)) as [j0|]; [simpl|by left].
  destruct (while _ _ _ _) as [[a2 j]|]; [simpl|by left].
  destruct (in_int (j + 1)) as [j1|]; [simpl|by left].
  destruct (vec_set a2 j1 key) as [a3|]; [simpl|by left].
  destruct (in_int (i + 1)) as [i'|] eqn:Hi'; [simpl|by left].
  apply in_int_Some in Hi' as [-> Hi'].
  right. eexists. split; [done|]. simpl. lia.
Qed.
